(** * artman configuration loader ([artman/config/loader.py])

    A shallow embedding of the loader: the document-level and
    artifact-level validators, the protobuf merge of [common] with the
    selected artifact, the path normalizer and the user-configuration
    reader, followed by the properties of the loader that the functional
    description of the repository states. *)

From stdpp Require Import base option list gmap strings.
From Stdlib Require Import Ascii String.

Local Open Scope string_scope.
Local Open Scope list_scope.

Set Warnings "-clear-no-such-hyp".

(** ** Python strings

    A string is the sequence of the bytes of its UTF-8 text.  The loader
    inspects ASCII characters only (the dot, the separator, the exclusion
    marker, the tilde), which occur in UTF-8 text as themselves and nowhere
    else, so prefixes, substrings and the removal of a leading ASCII
    character are those of the Python string. *)

Module Py.

(** [s.startswith(pre)] *)
Fixpoint startswith (s pre : string) {struct pre} : bool :=
  match pre, s with
  | EmptyString, _ => true
  | String _ _, EmptyString => false
  | String a pre', String b s' => if Ascii.eqb a b then startswith s' pre' else false
  end.

(** [s.endswith(suf)] for a one-character suffix, all that [posixpath.join]
    needs. *)
Fixpoint endswith_char (s : string) (c : ascii) : bool :=
  match s with
  | EmptyString => false
  | String a EmptyString => Ascii.eqb a c
  | String _ s' => endswith_char s' c
  end.

(** [sub in s] *)
Fixpoint contains (sub s : string) : bool :=
  startswith s sub ||
  match s with
  | EmptyString => false
  | String _ s' => contains sub s'
  end.

(** [s[1:]] *)
Definition tail (s : string) : string :=
  match s with
  | EmptyString => EmptyString
  | String _ s' => s'
  end.

(** [s.rstrip(c)] for a single character [c]. *)
Fixpoint rstrip (s : string) (c : ascii) : string :=
  match s with
  | EmptyString => EmptyString
  | String a s' =>
      match rstrip s' c with
      | EmptyString => if Ascii.eqb a c then EmptyString else String a EmptyString
      | r => String a r
      end
  end.

(** [s == c * len(s)] *)
Fixpoint all_char (s : string) (c : ascii) : bool :=
  match s with
  | EmptyString => true
  | String a s' => Ascii.eqb a c && all_char s' c
  end.

(** [bool(s)]: a string is truthy when it is not empty. *)
Definition truthy (s : string) : bool :=
  match s with
  | EmptyString => false
  | String _ _ => true
  end.

(** [s[:s.rfind(c) + 1]]: the part of [s] up to and including the last
    occurrence of [c] (empty when [c] does not occur). *)
Fixpoint upto_last (s : string) (c : ascii) : string :=
  match s with
  | EmptyString => EmptyString
  | String a s' =>
      if contains (String c EmptyString) s then String a (upto_last s' c)
      else EmptyString
  end.

(** [(s[:i], s[i:])] where [i = s.find(c)], or [i = len(s)] when [c] does
    not occur in [s]. *)
Fixpoint split_at (s : string) (c : ascii) : string * string :=
  match s with
  | EmptyString => (EmptyString, EmptyString)
  | String a s' =>
      if Ascii.eqb a c then (EmptyString, s)
      else let '(l, r) := split_at s' c in (String a l, r)
  end.

End Py.

(** ** [os.path] on a POSIX system *)

Module posixpath.

Definition sep : ascii := "/"%char.

(** [os.path.isabs] *)
Definition isabs (s : string) : bool := Py.startswith s "/".

(** [os.path.dirname]: the head up to the last separator, with its trailing
    separators stripped unless it consists of separators only. *)
Definition dirname (p : string) : string :=
  let head := Py.upto_last p sep in
  if Py.truthy head && negb (Py.all_char head sep) then Py.rstrip head sep
  else head.

(** [os.path.join] of two components. *)
Definition join (a b : string) : string :=
  if Py.startswith b "/" then b
  else if negb (Py.truthy a) || Py.endswith_char a sep then a +:+ b
  else a +:+ "/" +:+ b.

End posixpath.

(** ** Messages, exceptions and log records *)

(** An argument of the [%] formatting operator: a string, or the list of
    strings that [load_artifact_config] passes as [valid_values]. *)
Inductive fmt_arg : Type :=
| ArgStr (s : string)
| ArgList (l : list string).

(** A message is a literal, or [template % args] with the arguments kept
    apart from the template, in the order of the tuple. *)
Inductive message : Type :=
| Plain (s : string)
| Format (template : string) (args : list fmt_arg).

(** The exception classes that the loader distinguishes: the [ValueError]
    it raises itself, and what the YAML and protobuf libraries raise while a
    file is read. *)
Inductive exn : Type :=
| ValueError (msg : message)
| json_format_ParseError (detail : string)
| yaml_parser_ParserError (detail : string)
| OtherException (class detail : string).

Inductive result (A : Type) : Type :=
| Raise (e : exn)
| Return (a : A).
Arguments Raise {A} e.
Arguments Return {A} a.

(** Sequencing: an exception raised by the first computation propagates. *)
#[global] Instance result_bind : MBind result := fun A B k r =>
  match r with
  | Raise e => Raise e
  | Return a => k a
  end.
#[global] Instance result_ret : MRet result := fun A a => Return a.

(** ** [_normalize_path] *)

(** The double quote character, which the message below contains. *)
Definition dquote : ascii := ascii_of_nat 34.

Definition PATH_TRAVERSAL_FORMAT : string :=
  String dquote ".." +:+ String dquote
    " is disallowed in `%s` field of `%s`. Please use either a path relative to `%s` (preferred), or an absolute path.".

Definition traversal_error (field artman_config_path : string) : exn :=
  ValueError (Format PATH_TRAVERSAL_FORMAT
    [ArgStr field; ArgStr artman_config_path;
     ArgStr (posixpath.dirname artman_config_path)]).

Definition _normalize_path (path artman_config_path field : string) : result string :=
  if Py.startswith path ".." || Py.contains "/.." path then
    Raise (traversal_error field artman_config_path)
  else if posixpath.isabs path then Return path
  else Return (posixpath.join (posixpath.dirname artman_config_path) path).

(** ** The configuration schema ([config_pb2], [user_config_pb2]) *)

(** Modelled from the spec: the generated module [config_pb2] that declares
    the enums of the [Artifact] message is not among the sources.  The
    target languages are the seven that the pipeline baseline test lists;
    each enum has, as protobuf requires, a zero value that an unset field
    reads as. *)
Inductive Language : Type :=
| LANGUAGE_UNSPECIFIED
| JAVA | PYTHON | GO | RUBY | PHP | CSHARP | NODEJS.

(** Modelled from the spec: the artifact types it names (GRPC client, core
    proto bundle, GAPIC client, configuration only), with the zero value. *)
Inductive ArtifactType : Type :=
| TYPE_UNSPECIFIED
| GAPIC | GRPC | PROTOBUF | GAPIC_CONFIG.

#[global] Instance Language_eq_dec : EqDecision Language.
Proof. solve_decision. Defined.
#[global] Instance ArtifactType_eq_dec : EqDecision ArtifactType.
Proof. solve_decision. Defined.

(** Modelled from the spec: the [PublishTarget] message, whose declaration is
    not among the sources; the loader reads its [name] only. *)
Module PublishTarget.
Record t : Type := Build {
  name : string;
  repo_url : string;
  username : string;
  password : string;
  publish_env : string
}.
End PublishTarget.

(** Modelled from the spec: the [Artifact] message.  The fields that the
    loader reads or writes are spelled out; the fields of the message that
    the loader never mentions are kept together in [other], of a type [R]
    that is left open. *)
Module Artifact.
Record t (R : Type) : Type := Build {
  name : string;
  language : Language;
  type : ArtifactType;
  service_yaml : string;
  gapic_yaml : string;
  src_proto_paths : list string;
  publish_targets : list PublishTarget.t;
  other : R
}.
Arguments Build {R}.
Arguments name {R}.
Arguments language {R}.
Arguments type {R}.
Arguments service_yaml {R}.
Arguments gapic_yaml {R}.
Arguments src_proto_paths {R}.
Arguments publish_targets {R}.
Arguments other {R}.
End Artifact.

(** Modelled from the spec: the [Config] message, a [common] artifact and the
    sequence of named artifacts. *)
Module Config.
Record t (R : Type) : Type := Build {
  common : Artifact.t R;
  artifacts : list (Artifact.t R)
}.
Arguments Build {R}.
Arguments common {R}.
Arguments artifacts {R}.
End Config.

(** ** Protobuf merge *)

(** [Message.MergeFrom] of the protobuf library on a singular string field:
    a field that is set on the source overwrites the destination.  The
    message has no presence bit for such a field: it is set when it differs
    from the empty string. *)
Definition merge_string (dst src : string) : string :=
  if Py.truthy src then src else dst.

(** The same on the two enum fields, which are set when they differ from
    their zero value. *)
Definition merge_language (dst src : Language) : Language :=
  if bool_decide (src = LANGUAGE_UNSPECIFIED) then dst else src.

Definition merge_type (dst src : ArtifactType) : ArtifactType :=
  if bool_decide (src = TYPE_UNSPECIFIED) then dst else src.

Section Merge.
Context {R : Type}.
(** What [MergeFrom] does on the fields kept in [other]. *)
Variable merge_other : R -> R -> R.

(** [dst.MergeFrom(src)]: singular fields set on [src] overwrite those of
    [dst]; the elements of a repeated field of [src] are appended to those
    of [dst]. *)
Definition MergeFrom (dst src : Artifact.t R) : Artifact.t R :=
  {| Artifact.name := merge_string (Artifact.name dst) (Artifact.name src);
     Artifact.language := merge_language (Artifact.language dst) (Artifact.language src);
     Artifact.type := merge_type (Artifact.type dst) (Artifact.type src);
     Artifact.service_yaml :=
       merge_string (Artifact.service_yaml dst) (Artifact.service_yaml src);
     Artifact.gapic_yaml :=
       merge_string (Artifact.gapic_yaml dst) (Artifact.gapic_yaml src);
     Artifact.src_proto_paths :=
       Artifact.src_proto_paths dst ++ Artifact.src_proto_paths src;
     Artifact.publish_targets :=
       Artifact.publish_targets dst ++ Artifact.publish_targets src;
     Artifact.other := merge_other (Artifact.other dst) (Artifact.other src) |}.

End Merge.

(** ** Validation *)

Definition DUPLICATE_ARTIFACT_FORMAT : string :=
  "artifact `%s` has been configured twice, please rename.".

Definition DUPLICATE_TARGET_FORMAT : string :=
  "publish target `%s` in artifact `%s` has been configured twice, please rename.".

(** The inner loop of [_validate_artman_config], over the publish targets
    of one artifact; [targets] is the set of the names seen so far. *)
Fixpoint validate_targets (artifact_name : string) (targets : gset string)
    (l : list PublishTarget.t) : option message :=
  match l with
  | [] => None
  | target :: l' =>
      if decide (PublishTarget.name target ∈ targets) then
        Some (Format DUPLICATE_TARGET_FORMAT
                [ArgStr (PublishTarget.name target); ArgStr artifact_name])
      else validate_targets artifact_name ({[PublishTarget.name target]} ∪ targets) l'
  end.

(** The outer loop, over the artifacts; [artifacts] is the set of the names
    seen so far. *)
Fixpoint validate_artifacts {R : Type} (artifacts : gset string)
    (l : list (Artifact.t R)) : option message :=
  match l with
  | [] => None
  | artifact :: l' =>
      if decide (Artifact.name artifact ∈ artifacts) then
        Some (Format DUPLICATE_ARTIFACT_FORMAT [ArgStr (Artifact.name artifact)])
      else
        match validate_targets (Artifact.name artifact) ∅
                (Artifact.publish_targets artifact) with
        | Some msg => Some msg
        | None => validate_artifacts ({[Artifact.name artifact]} ∪ artifacts) l'
        end
  end.

Definition _validate_artman_config {R : Type} (config_pb : Config.t R) : option message :=
  validate_artifacts ∅ (Config.artifacts config_pb).

Definition _validate_artifact_config {R : Type} (artifact_config : Artifact.t R)
    : result unit :=
  if bool_decide (Artifact.language artifact_config = NODEJS) &&
     bool_decide (Artifact.type artifact_config = GRPC)
  then Raise (ValueError (Plain "GRPC artifact type is invalid for NodeJS."))
  else Return tt.

(** ** Normalization *)

(** One iteration of the loop over [src_proto_paths]. *)
Definition normalize_src_proto_path (src_proto_path artman_config_path : string)
    : result string :=
  if Py.startswith src_proto_path "-" then
    p ← _normalize_path (Py.tail src_proto_path) artman_config_path "src_proto_paths";
    mret ("-" +:+ p)
  else _normalize_path src_proto_path artman_config_path "src_proto_paths".

(** The loop: the normalized entries in the order of the field; the first
    entry that is refused ends it. *)
Fixpoint normalize_src_proto_paths (l : list string) (artman_config_path : string)
    : result (list string) :=
  match l with
  | [] => mret []
  | src_proto_path :: l' =>
      p ← normalize_src_proto_path src_proto_path artman_config_path;
      ps ← normalize_src_proto_paths l' artman_config_path;
      mret (p :: ps)
  end.

(** The guarded assignment of [service_yaml] and of [gapic_yaml]. *)
Definition normalize_if_set (path artman_config_path field : string) : result string :=
  if Py.truthy path then _normalize_path path artman_config_path field
  else mret path.

Definition _normalize_artifact_config {R : Type} (artifact_config : Artifact.t R)
    (artman_config_path : string) : result (Artifact.t R) :=
  service_yaml ← normalize_if_set (Artifact.service_yaml artifact_config)
                   artman_config_path "service_yaml";
  gapic_yaml ← normalize_if_set (Artifact.gapic_yaml artifact_config)
                 artman_config_path "gapic_yaml";
  normalized_src_proto_paths ←
    normalize_src_proto_paths (Artifact.src_proto_paths artifact_config)
      artman_config_path;
  mret {| Artifact.name := Artifact.name artifact_config;
          Artifact.language := Artifact.language artifact_config;
          Artifact.type := Artifact.type artifact_config;
          Artifact.service_yaml := service_yaml;
          Artifact.gapic_yaml := gapic_yaml;
          Artifact.src_proto_paths := normalized_src_proto_paths;
          Artifact.publish_targets := Artifact.publish_targets artifact_config;
          Artifact.other := Artifact.other artifact_config |}.

(** ** The environment: files, home directories, the log *)

(** What the loader sees of the machine it runs on.  [read_config] and
    [read_user_config_file] stand for the body of the [try] statement in
    [_parse] and in [read_user_config]: opening the file, [yaml.load],
    [json.dumps] and [json_format.Parse] into a fresh message; they return
    the parsed message or raise what these raise.  [U] is the type of the
    [UserConfig] message, whose declaration is not among the sources. *)
Record World (R U : Type) : Type := {
  (** the home directory of a user, the current one for the empty name
      (the variable HOME, or the password database) *)
  userhome : string -> option string;
  (** [os.path.exists] *)
  path_exists : string -> bool;
  (** [os.path.isfile] *)
  isfile : string -> bool;
  read_config : string -> result (Config.t R);
  read_user_config_file : string -> result U
}.
Arguments userhome {R U}.
Arguments path_exists {R U}.
Arguments isfile {R U}.
Arguments read_config {R U}.
Arguments read_user_config_file {R U}.

Inductive level : Type := WARNING | ERROR.

(** A record handed to [logger]. *)
Definition log_record : Type := level * message.

(** A computation that writes to the log: it takes the records logged so
    far and returns its outcome with the records logged afterwards. *)
Definition logging (A : Type) : Type := list log_record -> result A * list log_record.

(** [os.path.expanduser]: a path that does not start with a tilde is
    returned as it is; otherwise the user name runs up to the first
    separator, and the path is returned as it is when that user has no home
    directory. *)
Definition expanduser {R U : Type} (w : World R U) (path : string) : string :=
  if negb (Py.startswith path "~") then path
  else
    let '(user, rest) := Py.split_at (Py.tail path) posixpath.sep in
    match userhome w user with
    | None => path
    | Some home =>
        let expanded := Py.rstrip home posixpath.sep +:+ rest in
        if Py.truthy expanded then expanded else "/"
    end.

(** The exceptions named by the [except] clauses of the loader. *)
Definition is_parse_failure (e : exn) : bool :=
  match e with
  | json_format_ParseError _ | yaml_parser_ParserError _ => true
  | _ => false
  end.

(** ** Reading the documents *)

Definition CONFIG_NOT_FOUND_ERROR_MESSAGE_FORMAT : string :=
  "Artman YAML cannot be found at `%s`. Please check the file location.".
Definition INVALID_CONFIG_ERROR_MESSAGE_FORMAT : string := "Artman YAML %s is invalid.".
Definition INVALID_USER_CONFIG_ERROR_MESSAGE_FORMAT : string :=
  "Artman user YAML %s is invalid.".
Definition NO_USER_CONFIG_MESSAGE : string :=
  "No artman user config defined. Use the default one for this execution. Run `configure-artman` to set up user config.".
Definition ARTIFACT_NOT_FOUND_FORMAT : string :=
  "No artifact with `%s` configured in artman yaml. Valid values are %s".

Section Loader.
Context {R U : Type}.
Variable merge_other : R -> R -> R.
(** [UserConfig()], the message with every field at its default. *)
Variable UserConfig_default : U.
Variable w : World R U.

Definition read_user_config (artman_user_config_path : string) : logging U :=
  fun log =>
    let artman_user_config_path := expanduser w artman_user_config_path in
    if negb (isfile w artman_user_config_path) then
      (Return UserConfig_default, log ++ [(WARNING, Plain NO_USER_CONFIG_MESSAGE)])
    else
      match read_user_config_file w artman_user_config_path with
      | Raise e =>
          if is_parse_failure e then
            (Raise e,
             log ++ [(ERROR, Format INVALID_USER_CONFIG_ERROR_MESSAGE_FORMAT
                               [ArgStr artman_user_config_path])])
          else (Raise e, log)
      | Return config_pb => (Return config_pb, log)
      end.

Definition _parse (artman_yaml_path : string) : logging (Config.t R) :=
  fun log =>
    if negb (path_exists w artman_yaml_path) then
      (Raise (ValueError (Format CONFIG_NOT_FOUND_ERROR_MESSAGE_FORMAT
                            [ArgStr artman_yaml_path])), log)
    else
      match read_config w artman_yaml_path with
      | Raise e =>
          if is_parse_failure e then
            (Raise e,
             log ++ [(ERROR, Format INVALID_CONFIG_ERROR_MESSAGE_FORMAT
                               [ArgStr artman_yaml_path])])
          else (Raise e, log)
      | Return config_pb => (Return config_pb, log)
      end.

(** The message returned by [_validate_artman_config] is never empty, so
    [if validation_result] tells [None] from a message. *)
Definition _read_artman_config (artman_yaml_path : string) : logging (Config.t R) :=
  fun log =>
    match _parse artman_yaml_path log with
    | (Raise e, log') => (Raise e, log')
    | (Return artman_config, log') =>
        match _validate_artman_config artman_config with
        | Some validation_result => (Raise (ValueError validation_result), log')
        | None => (Return artman_config, log')
        end
    end.

(** The loop of [load_artifact_config] over [artman_config.artifacts], from
    the names collected so far, and the [raise] that follows it.
    [artifact_config] is the copy of [common]; it is merged into once only,
    since the first match returns. *)
Fixpoint find_artifact (artifact_config : Artifact.t R) (artifacts : list (Artifact.t R))
    (artman_config_path artifact_name : string) (valid_values : list string)
    : result (Artifact.t R) :=
  match artifacts with
  | [] =>
      Raise (ValueError (Format ARTIFACT_NOT_FOUND_FORMAT
                           [ArgStr artifact_name; ArgList valid_values]))
  | artifact :: artifacts' =>
      let valid_values := valid_values ++ [Artifact.name artifact] in
      if String.eqb (Artifact.name artifact) artifact_name then
        let artifact_config := MergeFrom merge_other artifact_config artifact in
        _ ← _validate_artifact_config artifact_config;
        _normalize_artifact_config artifact_config artman_config_path
      else
        find_artifact artifact_config artifacts' artman_config_path artifact_name
          valid_values
  end.

Definition load_artifact_config (artman_config_path artifact_name : string)
    : logging (Artifact.t R) :=
  fun log =>
    match _read_artman_config artman_config_path log with
    | (Raise e, log') => (Raise e, log')
    | (Return artman_config, log') =>
        (find_artifact (Config.common artman_config) (Config.artifacts artman_config)
           artman_config_path artifact_name [], log')
    end.

End Loader.

(** ** Vocabulary of the properties *)

(** [s] starts with [pre]; [sub] occurs in [s]. *)
Definition has_prefix (pre s : string) : Prop := ∃ r, s = pre +:+ r.
Definition has_substring (sub s : string) : Prop := ∃ a b, s = a +:+ sub +:+ b.

(** A path that [_normalize_path] refuses: it starts with two dots, or a
    separator followed by two dots occurs in it. *)
Definition traverses (path : string) : Prop :=
  has_prefix ".." path ∨ has_substring "/.." path.

(** The publish targets of an artifact have distinct names; a sequence of
    artifacts has distinct names and each has distinct target names. *)
Definition targets_unique {R : Type} (a : Artifact.t R) : Prop :=
  NoDup (PublishTarget.name <$> Artifact.publish_targets a).

Definition document_valid {R : Type} (l : list (Artifact.t R)) : Prop :=
  NoDup (Artifact.name <$> l) ∧ Forall targets_unique l.

(** [msg] reports the first violation of [l], in document order: everything
    before artifact [a] is valid, and either the name of [a] was seen
    before, or it is new and [t] is the first publish target of [a] whose
    name was seen before within [a]. *)
Inductive first_violation {R : Type} (l : list (Artifact.t R)) (msg : message) : Prop :=
| duplicate_artifact pre a post :
    l = pre ++ a :: post →
    document_valid pre →
    Artifact.name a ∈ (Artifact.name <$> pre) →
    msg = Format DUPLICATE_ARTIFACT_FORMAT [ArgStr (Artifact.name a)] →
    first_violation l msg
| duplicate_target pre a post tpre t tpost :
    l = pre ++ a :: post →
    document_valid pre →
    Artifact.name a ∉ (Artifact.name <$> pre) →
    Artifact.publish_targets a = tpre ++ t :: tpost →
    NoDup (PublishTarget.name <$> tpre) →
    PublishTarget.name t ∈ (PublishTarget.name <$> tpre) →
    msg = Format DUPLICATE_TARGET_FORMAT
            [ArgStr (PublishTarget.name t); ArgStr (Artifact.name a)] →
    first_violation l msg.

(** The path that an entry of [src_proto_paths] holds: the entry without
    its exclusion marker, when it has one. *)
Definition entry_path (entry : string) : string :=
  if Py.startswith entry "-" then Py.tail entry else entry.

(** How an entry of [src_proto_paths] is rewritten against the configuration
    path [cp]: behind an exclusion marker the rest of the entry is
    normalized and the marker put back; an entry without a marker is
    normalized whole. *)
Inductive src_proto_path_rewritten (cp : string) : string → string → Prop :=
| rewritten_exclusion rest p :
    _normalize_path rest cp "src_proto_paths" = Return p →
    src_proto_path_rewritten cp ("-" +:+ rest) ("-" +:+ p)
| rewritten_entry entry p :
    ¬ has_prefix "-" entry →
    _normalize_path entry cp "src_proto_paths" = Return p →
    src_proto_path_rewritten cp entry p.

(** How [service_yaml] and [gapic_yaml] are rewritten: an empty field stays
    empty, any other is normalized. *)
Definition yaml_path_rewritten (cp field path path' : string) : Prop :=
  (path = "" ∧ path' = "") ∨ (path ≠ "" ∧ _normalize_path path cp field = Return path').

(** The document of the end-to-end scenario, at the path below; [oc] and
    [oa] are the fields of the two messages that the loader does not
    mention. *)
Definition scenario_path : string := "/home/u/conf/artman.yaml".

Definition scenario_document {R : Type} (oc oa : R) : Config.t R :=
  Config.Build
    (Artifact.Build "" PYTHON TYPE_UNSPECIFIED "" "" [] [] oc)
    [Artifact.Build "foo" LANGUAGE_UNSPECIFIED GRPC "" ""
       ["protos/x.proto"; "-protos/y.proto"] [] oa].

(** A singular field after the merge: the value of the override when the
    override sets it (it differs from the value [unset] of an unset field),
    the value of [common] otherwise. *)
Definition override_or_inherit {A : Type} (unset common override merged : A) : Prop :=
  (override ≠ unset → merged = override) ∧ (override = unset → merged = common).

(** [s] ends with [suf]. *)
Definition has_suffix (suf s : string) : Prop := ∃ r, s = r +:+ suf.

(** A path that needs no further normalization: absolute, and without
    traversal. *)
Definition resolved (path : string) : Prop := has_prefix "/" path ∧ ¬ traverses path.

(** The two errors that [load_artifact_config] and
    [_validate_artifact_config] raise with a fixed text. *)
Definition NOT_FOUND_ERROR (artifact_name : string) (valid_values : list string) : exn :=
  ValueError (Format ARTIFACT_NOT_FOUND_FORMAT [ArgStr artifact_name; ArgList valid_values]).

Definition INCOMPATIBLE_ERROR : exn :=
  ValueError (Plain "GRPC artifact type is invalid for NodeJS.").

(** A run of one or more separators. *)
Inductive separators : string → Prop :=
| separators_one : separators "/"
| separators_more s : separators s → separators (String "/" s).

(** [dir] is the directory that contains the file at [cp], as a path is
    read: a path without separator has none; otherwise the file name is
    what follows the last separator and the directory what precedes the
    run of separators that ends there, unless nothing precedes it, in which
    case the directory is that run itself (the root). *)
Inductive containing_directory : string → string → Prop :=
| directory_none cp :
    ¬ has_substring "/" cp → containing_directory cp ""
| directory_root seps file :
    separators seps → ¬ has_substring "/" file →
    containing_directory (seps +:+ file) seps
| directory_of dir seps file :
    dir ≠ "" → ¬ has_suffix "/" dir → separators seps → ¬ has_substring "/" file →
    containing_directory (dir +:+ seps +:+ file) dir.

(** [joined] is the relative path [path] put under the directory [dir]:
    [path] itself under the empty directory, and otherwise [dir] and
    [path] with exactly one separator between them unless [dir] ends with
    one already. *)
Inductive joined_under (dir path : string) : string → Prop :=
| joined_empty : dir = "" → joined_under dir path path
| joined_separated : has_suffix "/" dir → joined_under dir path (dir +:+ path)
| joined_plain :
    dir ≠ "" → ¬ has_suffix "/" dir → joined_under dir path (dir +:+ "/" +:+ path).

(** [stripped] is [home] without its trailing separators. *)
Definition home_stripped (home stripped : string) : Prop :=
  ∃ seps, home = stripped +:+ seps ∧ (seps = "" ∨ separators seps)
    ∧ ¬ has_suffix "/" stripped.

(** [expanded] is [path] with the home-directory shorthand at its head
    expanded on the machine [w]: a path that does not start with a tilde
    stands for itself; in [~user/rest] the user name runs up to the first
    separator (the empty name is the current user); a user without home
    directory leaves the path as it is; otherwise the home directory,
    without its trailing separators, takes the place of [~user], and the
    root stands for an empty outcome. *)
Inductive expanded_path {R U : Type} (w : World R U) (path : string) : string → Prop :=
| expanded_plain :
    ¬ has_prefix "~" path → expanded_path w path path
| expanded_unknown user rest :
    path = "~" +:+ user +:+ rest → ¬ has_substring "/" user →
    rest = "" ∨ has_prefix "/" rest →
    userhome w user = None →
    expanded_path w path path
| expanded_home user rest home stripped :
    path = "~" +:+ user +:+ rest → ¬ has_substring "/" user →
    rest = "" ∨ has_prefix "/" rest →
    userhome w user = Some home → home_stripped home stripped →
    stripped +:+ rest ≠ "" →
    expanded_path w path (stripped +:+ rest)
| expanded_root user rest home stripped :
    path = "~" +:+ user +:+ rest → ¬ has_substring "/" user →
    rest = "" ∨ has_prefix "/" rest →
    userhome w user = Some home → home_stripped home stripped →
    stripped +:+ rest = "" →
    expanded_path w path "/".

(** A parse error: one of the two exception classes that the [except]
    clauses of the loader name. *)
Definition parse_error (e : exn) : Prop :=
  ∃ detail, e = json_format_ParseError detail ∨ e = yaml_parser_ParserError detail.

(** ** Concrete documents and machines

    Small inputs on which the loader is run in the examples below. *)

(** An artifact that sets its name only. *)
Definition artifact_named (n : string) : Artifact.t unit :=
  Artifact.Build n LANGUAGE_UNSPECIFIED TYPE_UNSPECIFIED "" "" [] [] tt.

(** A machine whose only file is [path], which parses to [doc]; it has no
    user configuration and no home directories. *)
Definition single_file_world (path : string) (doc : Config.t unit) : World unit unit :=
  {| userhome := fun _ => None;
     path_exists := fun p => String.eqb p path;
     isfile := fun p => String.eqb p path;
     read_config := fun p =>
       if String.eqb p path then Return doc else Raise (OtherException "IOError" p);
     read_user_config_file := fun p => Raise (OtherException "IOError" p) |}.

(** [MergeFrom] on an [other] part that holds no field. *)
Definition merge_unit (dst src : unit) : unit := src.

(** A document with the artifacts a, b and c. *)
Definition abc_document : Config.t unit :=
  Config.Build (artifact_named "")
    [artifact_named "a"; artifact_named "b"; artifact_named "c"].

(** A merged artifact with a relative [service_yaml], no [gapic_yaml], an
    excluded source path and a publish target, and what normalization
    against [/conf/artman.yaml] makes of it. *)
Definition staging_target : PublishTarget.t :=
  PublishTarget.Build "staging" "https://example.com/repo" "user" "secret" "dev".

Definition library_artifact : Artifact.t unit :=
  Artifact.Build "library" JAVA GAPIC "library.yaml" "" ["-protos/internal"]
    [staging_target] tt.

Definition library_artifact_normalized : Artifact.t unit :=
  Artifact.Build "library" JAVA GAPIC "/conf/library.yaml" "" ["-/conf/protos/internal"]
    [staging_target] tt.

(** A document whose [common] section and whose artifact [foo] both list a
    source path, the artifact, and what loading [foo] returns. *)
Definition shared_protos_override : Artifact.t unit :=
  Artifact.Build "foo" LANGUAGE_UNSPECIFIED GRPC "" "" ["/protos/foo"] [] tt.

Definition shared_protos_document : Config.t unit :=
  Config.Build
    (Artifact.Build "" PYTHON TYPE_UNSPECIFIED "" "" ["/protos/common"] [] tt)
    [shared_protos_override].

Definition shared_protos_effective : Artifact.t unit :=
  Artifact.Build "foo" PYTHON GRPC "" "" ["/protos/common"; "/protos/foo"] [] tt.

(** A machine on which the current user has a home directory, with one
    user configuration file, which does not parse. *)
Definition home_world : World unit unit :=
  {| userhome := fun user => if String.eqb user "" then Some "/home/u/" else None;
     path_exists := fun p => String.eqb p "/home/u/.artman/broken.yaml";
     isfile := fun p => String.eqb p "/home/u/.artman/broken.yaml";
     read_config := fun p => Raise (OtherException "IOError" p);
     read_user_config_file := fun p => Raise (yaml_parser_ParserError p) |}.

(** A document that names the artifact a twice, and a NodeJS artifact of
    type GRPC. *)
Definition twice_document : Config.t unit :=
  Config.Build (artifact_named "")
    [artifact_named "a"; artifact_named "b"; artifact_named "a"].

Definition nodejs_grpc_artifact : Artifact.t unit :=
  Artifact.Build "client" NODEJS GRPC "service.yaml" "" [] [staging_target] tt.

(** The library artifact with a second, included, source path. *)
Definition library_sources_artifact : Artifact.t unit :=
  Artifact.Build "library" JAVA GAPIC "library.yaml" ""
    ["-protos/internal"; "protos/library"] [staging_target] tt.

Definition library_sources_normalized : Artifact.t unit :=
  Artifact.Build "library" JAVA GAPIC "/conf/library.yaml" ""
    ["-/conf/protos/internal"; "/conf/protos/library"] [staging_target] tt.

(** A machine whose file [path] exists and whose reading raises [e]. *)
Definition unreadable_world (path : string) (e : exn) : World unit unit :=
  {| userhome := fun _ => None;
     path_exists := fun p => String.eqb p path;
     isfile := fun p => String.eqb p path;
     read_config := fun _ => Raise e;
     read_user_config_file := fun _ => Raise e |}.

(** A document whose artifact [client] asks for GRPC and inherits NodeJS and
    a traversing [service_yaml] from [common]; and one whose artifact
    [docs] has a traversing [gapic_yaml] and a traversing source path. *)
Definition nodejs_common_document : Config.t unit :=
  Config.Build
    (Artifact.Build "" NODEJS TYPE_UNSPECIFIED "../service.yaml" "" [] [] tt)
    [Artifact.Build "client" LANGUAGE_UNSPECIFIED GRPC "" "" [] [] tt].

Definition traversing_document : Config.t unit :=
  Config.Build
    (Artifact.Build "" PYTHON GAPIC "" "" [] [] tt)
    [Artifact.Build "docs" LANGUAGE_UNSPECIFIED TYPE_UNSPECIFIED "" "a/../gapic.yaml"
       ["protos"; "-../protos"] [] tt].

(** The document with the artifacts c and a, in that order. *)
Definition ca_document : Config.t unit :=
  Config.Build (artifact_named "other") [artifact_named "c"; artifact_named "a"].

(** What PyYAML raises on a document that its scanner cannot read, such as
    one with a quoted scalar that is never closed; the class is neither of
    the two that the loader catches. *)
Definition scanner_error : exn :=
  OtherException "yaml.scanner.ScannerError" "while scanning a quoted scalar".

(** * Properties *)

(** ** Strings *)

Lemma append_nil (s : string) : "" +:+ s = s.
Proof. reflexivity. Qed.

Lemma append_cons (a : ascii) (s r : string) : String a s +:+ r = String a (s +:+ r).
Proof. reflexivity. Qed.

Lemma startswith_spec s pre : Py.startswith s pre = true ↔ has_prefix pre s.
Proof.
  unfold has_prefix. revert s. induction pre as [|a pre IH]; intros s; simpl.
  - split; [intros _; by exists s | done].
  - destruct s as [|b s].
    + split; [done | intros [r Hr]; discriminate].
    + setoid_rewrite append_cons.
      destruct (Ascii.eqb_spec a b) as [->|Hne].
      * rewrite IH. split; intros [r Hr]; exists r; congruence.
      * split; [done | intros [r Hr]; congruence].
Qed.

Lemma startswith_false s pre : Py.startswith s pre = false ↔ ¬ has_prefix pre s.
Proof. rewrite <- startswith_spec. by destruct (Py.startswith s pre). Qed.

Lemma contains_spec sub s : Py.contains sub s = true ↔ has_substring sub s.
Proof.
  unfold has_substring. induction s as [|c s IH].
  - simpl. rewrite orb_false_r, startswith_spec. split.
    + intros [r Hr]. by exists "", r.
    + intros (a & b & Hab). destruct a; [by exists b | discriminate].
  - cbn [Py.contains]. rewrite orb_true_iff, startswith_spec, IH. split.
    + intros [[r Hr] | (a & b & Hab)].
      * by exists "", r.
      * exists (String c a), b. by rewrite append_cons, Hab.
    + intros (a & b & Hab). destruct a as [|c' a].
      * left. by exists b.
      * right. exists a, b. rewrite append_cons in Hab. congruence.
Qed.

Lemma contains_false sub s : Py.contains sub s = false ↔ ¬ has_substring sub s.
Proof. rewrite <- contains_spec. by destruct (Py.contains sub s). Qed.

Lemma traverses_spec path :
  Py.startswith path ".." || Py.contains "/.." path = true ↔ traverses path.
Proof. unfold traverses. by rewrite orb_true_iff, startswith_spec, contains_spec. Qed.

Lemma traverses_false path :
  Py.startswith path ".." || Py.contains "/.." path = false ↔ ¬ traverses path.
Proof.
  rewrite <- traverses_spec.
  by destruct (Py.startswith path ".." || Py.contains "/.." path).
Qed.

Lemma traverses_dec path : traverses path ∨ ¬ traverses path.
Proof.
  rewrite <- traverses_spec.
  destruct (Py.startswith path ".." || Py.contains "/.." path); auto.
Qed.

Lemma isabs_spec path : posixpath.isabs path = true ↔ has_prefix "/" path.
Proof. apply startswith_spec. Qed.

(** ** The path normalizer *)

Lemma normalize_path_traverses path cp field :
  traverses path → _normalize_path path cp field = Raise (traversal_error field cp).
Proof. intros H%traverses_spec. unfold _normalize_path. by rewrite H. Qed.

Lemma normalize_path_ok path cp field :
  ¬ traverses path →
  _normalize_path path cp field =
    Return (if posixpath.isabs path then path
            else posixpath.join (posixpath.dirname cp) path).
Proof.
  intros H%traverses_false. unfold _normalize_path. rewrite H.
  by destruct (posixpath.isabs path).
Qed.

Lemma normalize_path_raises path cp field e :
  _normalize_path path cp field = Raise e →
  traverses path ∧ e = traversal_error field cp.
Proof.
  destruct (traverses_dec path) as [H|H].
  - rewrite (normalize_path_traverses _ _ _ H). by intros [= <-].
  - by rewrite (normalize_path_ok _ _ _ H).
Qed.

Lemma normalize_path_returns path cp field p :
  _normalize_path path cp field = Return p → ¬ traverses path.
Proof.
  intros Hp Ht. by rewrite (normalize_path_traverses _ _ _ Ht) in Hp.
Qed.

(** The paths that the description of the loader lists: the first three are
    refused, the last is accepted. *)
Example normalize_path_parent :
  _normalize_path "../x" "/conf/artman.yaml" "service_yaml" =
    Raise (traversal_error "service_yaml" "/conf/artman.yaml").
Proof. reflexivity. Qed.

Example normalize_path_inner_parent :
  _normalize_path "a/../b" "/conf/artman.yaml" "service_yaml" =
    Raise (traversal_error "service_yaml" "/conf/artman.yaml").
Proof. reflexivity. Qed.

Example normalize_path_dotted_name :
  _normalize_path "a/..b" "/conf/artman.yaml" "service_yaml" =
    Raise (traversal_error "service_yaml" "/conf/artman.yaml").
Proof. reflexivity. Qed.

Example normalize_path_inner_dots :
  _normalize_path "a..b" "/conf/artman.yaml" "service_yaml" = Return "/conf/a..b".
Proof. reflexivity. Qed.

Example dirname_examples :
  posixpath.dirname scenario_path = "/home/u/conf"
  ∧ posixpath.dirname "artman.yaml" = ""
  ∧ posixpath.dirname "/artman.yaml" = "/"
  ∧ posixpath.dirname "conf//artman.yaml" = "conf".
Proof. done. Qed.

Example join_examples :
  posixpath.join "/home/u/conf" "protos/x.proto" = "/home/u/conf/protos/x.proto"
  ∧ posixpath.join "" "x.proto" = "x.proto"
  ∧ posixpath.join "/" "x.proto" = "/x.proto"
  ∧ posixpath.join "/conf" "/abs/x.proto" = "/abs/x.proto".
Proof. done. Qed.

(** C7: an absolute path without traversal is returned unchanged, whatever
    the configuration path and the field; so normalizing the outcome again,
    against any configuration path, gives the same path. *)
Theorem normalize_path_idempotent (path cp field cp' field' : string) :
  has_prefix "/" path → ¬ has_prefix ".." path → ¬ has_substring "/.." path →
  _normalize_path path cp field = Return path
  ∧ (p ← _normalize_path path cp field; _normalize_path p cp' field') = Return path.
Proof.
  intros Ha%isabs_spec H1 H2.
  assert (Ht : ¬ traverses path) by (intros [?|?]; auto).
  assert (E : ∀ c f, _normalize_path path c f = Return path).
  { intros c f. rewrite normalize_path_ok by done. by rewrite Ha. }
  split; [apply E|]. rewrite E. simpl. apply E.
Qed.

Lemma normalize_path_idempotent_witness :
  _normalize_path "/srv/api/service.yaml" "conf/artman.yaml" "service_yaml" =
    Return "/srv/api/service.yaml"
  ∧ (p ← _normalize_path "/srv/api/service.yaml" "conf/artman.yaml" "service_yaml";
     _normalize_path p "/etc/artman.yaml" "gapic_yaml") = Return "/srv/api/service.yaml".
Proof.
  apply (normalize_path_idempotent "/srv/api/service.yaml" "conf/artman.yaml"
           "service_yaml" "/etc/artman.yaml" "gapic_yaml").
  - by exists "srv/api/service.yaml".
  - by apply startswith_false.
  - by apply contains_false.
Defined.

(** ** Artifact-level validation *)

Lemma validate_artifact_config_compatible {R : Type} (artifact_config : Artifact.t R) :
  ¬ (Artifact.language artifact_config = NODEJS ∧ Artifact.type artifact_config = GRPC) →
  _validate_artifact_config artifact_config = Return tt.
Proof.
  unfold _validate_artifact_config.
  repeat case_bool_decide; simpl; first [done | tauto].
Qed.

(** C6: [_validate_artifact_config] raises exactly when the language is
    NODEJS and the type is GRPC, whatever the other fields hold; any other
    pair of language and type is let through. *)
Theorem validate_artifact_config_spec {R : Type} (artifact_config : Artifact.t R) :
  ((Artifact.language artifact_config = NODEJS ∧ Artifact.type artifact_config = GRPC)
     ↔ _validate_artifact_config artifact_config =
         Raise (ValueError (Plain "GRPC artifact type is invalid for NodeJS.")))
  ∧ ((Artifact.language artifact_config = NODEJS ∧ Artifact.type artifact_config = GRPC)
     ↔ ∃ e, _validate_artifact_config artifact_config = Raise e)
  ∧ (¬ (Artifact.language artifact_config = NODEJS ∧ Artifact.type artifact_config = GRPC)
     ↔ _validate_artifact_config artifact_config = Return tt).
Proof.
  unfold _validate_artifact_config.
  repeat case_bool_decide; simpl; split_and!; split;
    first [done | tauto | by eauto | by intros [? ?]].
Qed.

Lemma validate_artifact_config_spec_witness :
  _validate_artifact_config nodejs_grpc_artifact =
    Raise (ValueError (Plain "GRPC artifact type is invalid for NodeJS."))
  ∧ _validate_artifact_config library_artifact = Return tt.
Proof.
  split.
  - apply (proj1 (proj1 (validate_artifact_config_spec nodejs_grpc_artifact))).
    split; reflexivity.
  - apply (proj1 (proj2 (proj2 (validate_artifact_config_spec library_artifact)))).
    intros [H _]. discriminate H.
Defined.

(** ** Document-level validation *)

Lemma validate_targets_None an (S : gset string) l :
  validate_targets an S l = None ↔
  NoDup (PublishTarget.name <$> l) ∧ ∀ x, x ∈ (PublishTarget.name <$> l) → x ∉ S.
Proof.
  revert S. induction l as [|t l IH]; intros S; simpl.
  - split; [intros _; split; [constructor | set_solver] | done].
  - rewrite NoDup_cons. case_decide as Hin.
    + split; [done | intros [_ H]]. destruct (H (PublishTarget.name t)); set_solver.
    + rewrite IH. split.
      * intros [Hnd H]. split_and!; [|done|].
        -- intros Ht. apply H in Ht. set_solver.
        -- intros x [->|Hx]%elem_of_cons; [done|]. apply H in Hx. set_solver.
      * intros [[Hnt Hnd] H]. split; [done|].
        intros x Hx. apply not_elem_of_union. split; [|apply H; set_solver].
        intros ->%elem_of_singleton. done.
Qed.

Lemma validate_targets_app an (S : gset string) pre rest :
  validate_targets an S pre = None →
  validate_targets an S (pre ++ rest) =
    validate_targets an (list_to_set (PublishTarget.name <$> pre) ∪ S) rest.
Proof.
  revert S. induction pre as [|t pre IH]; intros S; simpl.
  - intros _. f_equal. set_solver.
  - case_decide as Hin; [done|]. intros Hv. rewrite IH by done. f_equal. set_solver.
Qed.

Lemma validate_targets_Some an (S : gset string) l msg :
  validate_targets an S l = Some msg →
  ∃ pre t post, l = pre ++ t :: post ∧ validate_targets an S pre = None
    ∧ (PublishTarget.name t ∈ S ∨ PublishTarget.name t ∈ (PublishTarget.name <$> pre))
    ∧ msg = Format DUPLICATE_TARGET_FORMAT [ArgStr (PublishTarget.name t); ArgStr an].
Proof.
  revert S. induction l as [|t l IH]; intros S; simpl; [done|].
  case_decide as Hin.
  - intros [= <-]. exists [], t, l. auto.
  - intros (pre & t' & post & -> & Hpre & Ht' & ->)%IH.
    exists (t :: pre), t', post. simpl. rewrite decide_False by done.
    split_and!; try done.
    destruct Ht' as [Ht'|Ht']; [|set_solver].
    apply elem_of_union in Ht' as [?%elem_of_singleton|?]; [|by left].
    right. set_solver.
Qed.

Lemma validate_artifacts_None {R} (S : gset string) (l : list (Artifact.t R)) :
  validate_artifacts S l = None ↔
  document_valid l ∧ ∀ x, x ∈ (Artifact.name <$> l) → x ∉ S.
Proof.
  unfold document_valid. revert S. induction l as [|a l IH]; intros S; simpl.
  - split; [intros _; split_and!; [constructor | constructor | set_solver] | done].
  - rewrite NoDup_cons, Forall_cons. case_decide as Hin.
    + split; [done | intros [_ H]]. destruct (H (Artifact.name a)); set_solver.
    + destruct (validate_targets _ ∅ _) as [msg|] eqn:Et.
      * split; [done|]. intros [[_ [Hu _]] _].
        assert (validate_targets (Artifact.name a) ∅ (Artifact.publish_targets a) = None)
          as Hn by (apply validate_targets_None; split; [done | set_solver]).
        congruence.
      * apply validate_targets_None in Et as [Hu _]. rewrite IH. split.
        -- intros [[Hnd Hf] H]. split_and!; try done.
           ++ intros Ht. apply H in Ht. set_solver.
           ++ intros x [->|Hx]%elem_of_cons; [done|]. apply H in Hx. set_solver.
        -- intros [[[Hnt Hnd] [_ Hf]] H]. split; [done|].
           intros x Hx. apply not_elem_of_union. split; [|apply H; set_solver].
           intros ->%elem_of_singleton. done.
Qed.

Lemma validate_artifacts_app {R} (S : gset string) (pre rest : list (Artifact.t R)) :
  validate_artifacts S pre = None →
  validate_artifacts S (pre ++ rest) =
    validate_artifacts (list_to_set (Artifact.name <$> pre) ∪ S) rest.
Proof.
  revert S. induction pre as [|a pre IH]; intros S; simpl.
  - intros _. f_equal. set_solver.
  - case_decide as Hin; [done|]. destruct (validate_targets _ ∅ _); [done|].
    intros Hv. rewrite IH by done. f_equal. set_solver.
Qed.

Lemma validate_artifacts_Some {R} (S : gset string) (l : list (Artifact.t R)) msg :
  validate_artifacts S l = Some msg →
  ∃ pre a post, l = pre ++ a :: post ∧ validate_artifacts S pre = None
    ∧ (((Artifact.name a ∈ S ∨ Artifact.name a ∈ (Artifact.name <$> pre))
        ∧ msg = Format DUPLICATE_ARTIFACT_FORMAT [ArgStr (Artifact.name a)])
       ∨ ((Artifact.name a ∉ S) ∧ (Artifact.name a ∉ (Artifact.name <$> pre))
          ∧ validate_targets (Artifact.name a) ∅ (Artifact.publish_targets a) = Some msg)).
Proof.
  revert S. induction l as [|a l IH]; intros S; simpl; [done|].
  case_decide as Hin.
  - intros [= <-]. exists [], a, l. split_and!; [done..|]. left. auto.
  - destruct (validate_targets _ ∅ _) as [m|] eqn:Et.
    + intros [= <-]. exists [], a, l. split_and!; try done.
      right. split_and!; [done | set_solver | done].
    + intros (pre & a' & post & -> & Hpre & Ha')%IH.
      exists (a :: pre), a', post. simpl. rewrite decide_False, Et by done.
      split_and!; try done.
      destruct Ha' as [[Ha' ->]|(Ha1 & Ha2 & Ha3)].
      * left. split; [|done]. destruct Ha' as [Ha'|Ha']; [|set_solver].
        apply elem_of_union in Ha' as [?%elem_of_singleton|?]; [|by left].
        right. set_solver.
      * right. split_and!; [set_solver | | done].
        intros [E|?]%elem_of_cons; [|done]. set_solver.
Qed.

Lemma validate_artman_config_valid {R} (config_pb : Config.t R) :
  _validate_artman_config config_pb = None ↔ document_valid (Config.artifacts config_pb).
Proof.
  unfold _validate_artman_config. rewrite validate_artifacts_None.
  split; [by intros [? _] | intros ?; split; [done | set_solver]].
Qed.

Lemma validate_artman_config_violation {R} (config_pb : Config.t R) msg :
  _validate_artman_config config_pb = Some msg ↔
  first_violation (Config.artifacts config_pb) msg.
Proof.
  unfold _validate_artman_config. split.
  - intros (pre & a & post & El & Hpre & Ha)%validate_artifacts_Some.
    apply validate_artifacts_None in Hpre as [Hpre _].
    destruct Ha as [[Ha ->]|(_ & Ha & Ht)].
    + eapply duplicate_artifact; [done.. | | done]. set_solver.
    + apply validate_targets_Some in Ht as (tpre & t & tpost & Et & Htpre & Ht & ->).
      apply validate_targets_None in Htpre as [Htpre _].
      eapply duplicate_target; [done.. | | done]. set_solver.
  - assert (∀ pre : list (Artifact.t R), document_valid pre →
              validate_artifacts ∅ pre = None) as Hv.
    { intros pre Hpre. apply validate_artifacts_None. split; [done | set_solver]. }
    intros [pre a post -> Hpre Ha ->|pre a post tpre t tpost -> Hpre Ha Et Htpre Ht ->];
      rewrite validate_artifacts_app by auto; simpl.
    + rewrite decide_True; [done | set_solver].
    + rewrite decide_False by set_solver.
      rewrite Et, validate_targets_app
        by (apply validate_targets_None; split; [done | set_solver]).
      simpl. rewrite decide_True; [done | set_solver].
Qed.

(** ** Reading and validating the document *)

Section LoaderFacts.
Context {R U : Type}.
Variable merge_other : R → R → R.
Variable w : World R U.

Lemma parse_ok path doc log :
  path_exists w path = true → read_config w path = Return doc →
  _parse w path log = (Return doc, log).
Proof. intros He Hr. unfold _parse. by rewrite He, Hr. Qed.

Lemma read_artman_config_invalid path doc log msg :
  path_exists w path = true → read_config w path = Return doc →
  _validate_artman_config doc = Some msg →
  _read_artman_config w path log = (Raise (ValueError msg), log).
Proof.
  intros He Hr Hv. unfold _read_artman_config. by rewrite (parse_ok _ doc), Hv.
Qed.

Lemma read_artman_config_ok path doc log :
  path_exists w path = true → read_config w path = Return doc →
  _validate_artman_config doc = None →
  _read_artman_config w path log = (Return doc, log).
Proof.
  intros He Hr Hv. unfold _read_artman_config. by rewrite (parse_ok _ doc), Hv.
Qed.

Lemma load_artifact_config_ok path name doc log :
  path_exists w path = true → read_config w path = Return doc →
  _validate_artman_config doc = None →
  load_artifact_config merge_other w path name log =
    (find_artifact merge_other (Config.common doc) (Config.artifacts doc) path name [],
     log).
Proof.
  intros He Hr Hv. unfold load_artifact_config.
  by rewrite (read_artman_config_ok _ doc).
Qed.

Lemma find_artifact_not_found common l path name valid_values :
  name ∉ (Artifact.name <$> l) →
  find_artifact merge_other common l path name valid_values =
    Raise (ValueError (Format ARTIFACT_NOT_FOUND_FORMAT
             [ArgStr name; ArgList (valid_values ++ (Artifact.name <$> l))])).
Proof.
  revert valid_values. induction l as [|a l IH]; intros vv Hn; simpl.
  - by rewrite app_nil_r.
  - apply not_elem_of_cons in Hn as [Hne Hn].
    destruct (String.eqb_spec (Artifact.name a) name) as [E|_]; [congruence|].
    rewrite IH by done. by rewrite <- app_assoc.
Qed.

Lemma find_artifact_found common pre a post path name valid_values :
  name ∉ (Artifact.name <$> pre) → Artifact.name a = name →
  find_artifact merge_other common (pre ++ a :: post) path name valid_values =
    (_ ← _validate_artifact_config (MergeFrom merge_other common a);
     _normalize_artifact_config (MergeFrom merge_other common a) path).
Proof.
  revert valid_values. induction pre as [|b pre IH]; intros vv Hn Ha; simpl.
  - by rewrite (proj2 (String.eqb_eq _ _) Ha).
  - apply not_elem_of_cons in Hn as [Hne Hn].
    destruct (String.eqb_spec (Artifact.name b) name) as [E|_]; [congruence|].
    by apply IH.
Qed.

End LoaderFacts.

(** A target name used twice within one artifact is reported with the name
    of the artifact; the same target name in two artifacts is no violation. *)
Example validate_duplicate_target :
  _validate_artman_config
    (Config.Build (artifact_named "")
       [library_artifact;
        Artifact.Build "client" NODEJS GAPIC "" "" [] [staging_target; staging_target] tt])
  = Some (Format DUPLICATE_TARGET_FORMAT [ArgStr "staging"; ArgStr "client"]).
Proof. by vm_compute. Qed.

Example validate_shared_target :
  _validate_artman_config
    (Config.Build (artifact_named "") [library_artifact; nodejs_grpc_artifact]) = None.
Proof. by vm_compute. Qed.

(** C4: [_validate_artman_config] returns no message exactly when the
    artifact names are pairwise distinct and, within each artifact, so are
    the names of its publish targets; a message it returns is that of the
    first violation in document order, the artifact name being checked
    before the targets of the artifact; and [load_artifact_config] raises
    that message before it looks for the artifact. *)
Theorem validate_artman_config_spec {R U : Type} (merge_other : R → R → R)
    (config_pb : Config.t R) :
  (_validate_artman_config config_pb = None ↔
     document_valid (Config.artifacts config_pb))
  ∧ (∀ msg, _validate_artman_config config_pb = Some msg ↔
       first_violation (Config.artifacts config_pb) msg)
  ∧ (∀ (w : World R U) path name log msg,
       path_exists w path = true → read_config w path = Return config_pb →
       _validate_artman_config config_pb = Some msg →
       load_artifact_config merge_other w path name log = (Raise (ValueError msg), log)).
Proof.
  split_and!.
  - apply validate_artman_config_valid.
  - apply validate_artman_config_violation.
  - intros w path name log msg He Hr Hv. unfold load_artifact_config.
    by rewrite (read_artman_config_invalid w path config_pb log msg).
Qed.

Lemma validate_artman_config_spec_witness :
  load_artifact_config merge_unit (single_file_world "artman.yaml" twice_document)
    "artman.yaml" "b" [] =
    (Raise (ValueError (Format DUPLICATE_ARTIFACT_FORMAT [ArgStr "a"])), []).
Proof.
  apply (proj2 (proj2 (validate_artman_config_spec (U := unit) merge_unit twice_document))
           (single_file_world "artman.yaml" twice_document) "artman.yaml" "b" []).
  - reflexivity.
  - reflexivity.
  - vm_compute. reflexivity.
Defined.

(** C5: on a valid document none of whose artifacts has the requested name,
    [load_artifact_config] raises the not-found error, formatted with the
    requested name and the list of the names of all the artifacts of the
    document, in document order. *)
Theorem artifact_not_found {R U : Type} (merge_other : R → R → R) (w : World R U)
    (artman_config_path artifact_name : string) (log : list log_record)
    (doc : Config.t R) :
  path_exists w artman_config_path = true →
  read_config w artman_config_path = Return doc →
  _validate_artman_config doc = None →
  artifact_name ∉ (Artifact.name <$> Config.artifacts doc) →
  load_artifact_config merge_other w artman_config_path artifact_name log =
    (Raise (ValueError (Format ARTIFACT_NOT_FOUND_FORMAT
              [ArgStr artifact_name;
               ArgList (Artifact.name <$> Config.artifacts doc)])), log).
Proof.
  intros He Hr Hv Hn. rewrite (load_artifact_config_ok _ _ _ _ doc) by done.
  by rewrite find_artifact_not_found.
Qed.

Lemma artifact_not_found_witness :
  load_artifact_config merge_unit (single_file_world "artman.yaml" abc_document)
    "artman.yaml" "x" [] =
    (Raise (ValueError (Format ARTIFACT_NOT_FOUND_FORMAT
              [ArgStr "x"; ArgList ["a"; "b"; "c"]])), []).
Proof.
  apply (artifact_not_found merge_unit (single_file_world "artman.yaml" abc_document)
           "artman.yaml" "x" [] abc_document).
  - reflexivity.
  - reflexivity.
  - vm_compute. reflexivity.
  - intros H. repeat (apply elem_of_cons in H as [H|H]; [discriminate|]).
    by apply elem_of_nil in H.
Defined.

(** ** Normalization of an artifact *)

Lemma bind_Return {A B : Type} (r : result A) (k : A → result B) (b : B) :
  (x ← r; k x) = Return b ↔ ∃ a, r = Return a ∧ k a = Return b.
Proof.
  destruct r as [e|a]; simpl.
  - split; [done | by intros (a & ? & _)].
  - split; [by exists a | by intros (a' & [= <-] & ?)].
Qed.

Lemma bind_Raise {A B : Type} (r : result A) (k : A → result B) (e : exn) :
  (x ← r; k x) = Raise e ↔ r = Raise e ∨ ∃ a, r = Return a ∧ k a = Raise e.
Proof.
  destruct r as [e'|a]; simpl.
  - split; [intros [= ->]; by left | intros [[= ->]|(a & ? & _)]; [done | discriminate]].
  - split; [right; by exists a | intros [?|(a' & [= <-] & ?)]; [discriminate | done]].
Qed.

Lemma truthy_spec s : Py.truthy s = true ↔ s ≠ "".
Proof. by destruct s. Qed.

Lemma normalize_if_set_spec path cp field path' :
  normalize_if_set path cp field = Return path' ↔ yaml_path_rewritten cp field path path'.
Proof.
  unfold normalize_if_set, yaml_path_rewritten. destruct path as [|c path]; simpl.
  - split; [intros [= <-]; by left | intros [[_ ->]|[? _]]; done].
  - split; [by right | intros [[? _]|[_ ?]]; done].
Qed.

Lemma normalize_if_set_Raise path cp field e :
  normalize_if_set path cp field = Raise e →
  path ≠ "" ∧ traverses path ∧ e = traversal_error field cp.
Proof.
  unfold normalize_if_set. destruct path as [|c path]; simpl; [done|].
  intros [? ?]%normalize_path_raises. done.
Qed.

Lemma normalize_if_set_returns path cp field :
  ¬ traverses path → ∃ path', normalize_if_set path cp field = Return path'.
Proof.
  intros Ht. unfold normalize_if_set. destruct (Py.truthy path); [|by eexists].
  rewrite normalize_path_ok by done. by eexists.
Qed.

Lemma startswith_marker entry :
  Py.startswith entry "-" = true ↔ entry = "-" +:+ Py.tail entry.
Proof.
  rewrite startswith_spec. split.
  - intros [r ->]. done.
  - intros ->. by eexists.
Qed.

Lemma normalize_src_proto_path_spec entry cp p :
  normalize_src_proto_path entry cp = Return p ↔ src_proto_path_rewritten cp entry p.
Proof.
  unfold normalize_src_proto_path. split.
  - destruct (Py.startswith entry "-") eqn:E.
    + apply startswith_marker in E. intros (q & Hq & [= <-])%bind_Return.
      rewrite E. by constructor.
    + apply startswith_false in E. by constructor 2.
  - intros [rest q Hq|e q Hn Hq].
    + rewrite (proj2 (startswith_spec _ _)) by (by eexists).
      rewrite append_cons, append_nil. simpl. by rewrite Hq.
    + by rewrite (proj2 (startswith_false _ _) Hn).
Qed.

Lemma normalize_src_proto_path_Raise entry cp e :
  normalize_src_proto_path entry cp = Raise e →
  traverses (entry_path entry) ∧ e = traversal_error "src_proto_paths" cp.
Proof.
  unfold normalize_src_proto_path, entry_path.
  destruct (Py.startswith entry "-").
  - intros [H|(q & _ & ?)]%bind_Raise; [|done]. by apply normalize_path_raises in H.
  - apply normalize_path_raises.
Qed.

Lemma normalize_src_proto_path_returns entry cp :
  ¬ traverses (entry_path entry) → ∃ p, normalize_src_proto_path entry cp = Return p.
Proof.
  unfold normalize_src_proto_path, entry_path.
  destruct (Py.startswith entry "-"); intros Ht; rewrite normalize_path_ok by done;
    by eexists.
Qed.

Lemma normalize_src_proto_paths_spec l cp l' :
  normalize_src_proto_paths l cp = Return l' ↔ Forall2 (src_proto_path_rewritten cp) l l'.
Proof.
  revert l'. induction l as [|entry l IH]; intros l'; simpl.
  - split; [intros [= <-]; constructor | by intros ->%Forall2_nil_inv_l].
  - rewrite bind_Return. split.
    + intros (p & Hp%normalize_src_proto_path_spec & (ps & Hps%IH & [= <-])%bind_Return).
      by constructor.
    + intros (p & ps & Hp%normalize_src_proto_path_spec & Hps%IH & ->)%Forall2_cons_inv_l.
      exists p. split; [done|]. by rewrite Hps.
Qed.

Lemma normalize_src_proto_paths_Raise l cp e :
  normalize_src_proto_paths l cp = Raise e →
  Exists (λ entry, traverses (entry_path entry)) l
  ∧ e = traversal_error "src_proto_paths" cp.
Proof.
  induction l as [|entry l IH]; simpl; [done|].
  intros [H|(p & _ & [H|(ps & _ & ?)]%bind_Raise)]%bind_Raise; [| |done].
  - apply normalize_src_proto_path_Raise in H as [? ?]. split; [by left | done].
  - apply IH in H as [? ?]. split; [by right | done].
Qed.

Lemma normalize_src_proto_paths_returns l cp :
  Forall (λ entry, ¬ traverses (entry_path entry)) l →
  ∃ l', normalize_src_proto_paths l cp = Return l'.
Proof.
  induction 1 as [|entry l Hentry _ [l' IH]]; simpl; [by eexists|].
  destruct (normalize_src_proto_path_returns entry cp Hentry) as [p ->].
  rewrite IH. by eexists.
Qed.

Lemma normalize_artifact_config_Return {R} (cfg : Artifact.t R) cp cfg' :
  _normalize_artifact_config cfg cp = Return cfg' ↔
  ∃ service_yaml gapic_yaml src_proto_paths,
    normalize_if_set (Artifact.service_yaml cfg) cp "service_yaml" = Return service_yaml
    ∧ normalize_if_set (Artifact.gapic_yaml cfg) cp "gapic_yaml" = Return gapic_yaml
    ∧ normalize_src_proto_paths (Artifact.src_proto_paths cfg) cp = Return src_proto_paths
    ∧ cfg' = Artifact.Build (Artifact.name cfg) (Artifact.language cfg) (Artifact.type cfg)
               service_yaml gapic_yaml src_proto_paths (Artifact.publish_targets cfg)
               (Artifact.other cfg).
Proof.
  unfold _normalize_artifact_config. rewrite bind_Return.
  setoid_rewrite bind_Return. setoid_rewrite bind_Return. split.
  - intros (sy & Hsy & gy & Hgy & ps & Hps & [= <-]). by exists sy, gy, ps.
  - intros (sy & gy & ps & Hsy & Hgy & Hps & ->). exists sy. split; [done|].
    exists gy. split; [done|]. by exists ps.
Qed.

Lemma normalize_artifact_config_Raise {R} (cfg : Artifact.t R) cp e :
  _normalize_artifact_config cfg cp = Raise e →
  (Artifact.service_yaml cfg ≠ "" ∧ e = traversal_error "service_yaml" cp)
  ∨ (Artifact.gapic_yaml cfg ≠ "" ∧ e = traversal_error "gapic_yaml" cp)
  ∨ e = traversal_error "src_proto_paths" cp.
Proof.
  unfold _normalize_artifact_config.
  intros [H|(sy & _ & [H|(gy & _ & [H|(ps & _ & ?)]%bind_Raise)]%bind_Raise)]%bind_Raise;
    [| | |done].
  - apply normalize_if_set_Raise in H as (? & _ & ?). by left.
  - apply normalize_if_set_Raise in H as (? & _ & ?). right. by left.
  - apply normalize_src_proto_paths_Raise in H as [_ ?]. right. by right.
Qed.

Lemma normalize_artifact_config_returns {R} (cfg : Artifact.t R) cp :
  ¬ traverses (Artifact.service_yaml cfg) → ¬ traverses (Artifact.gapic_yaml cfg) →
  Forall (λ entry, ¬ traverses (entry_path entry)) (Artifact.src_proto_paths cfg) →
  ∃ cfg', _normalize_artifact_config cfg cp = Return cfg'.
Proof.
  intros Hsy Hgy Hps. unfold _normalize_artifact_config.
  destruct (normalize_if_set_returns _ cp "service_yaml" Hsy) as [sy ->].
  destruct (normalize_if_set_returns _ cp "gapic_yaml" Hgy) as [gy ->].
  destruct (normalize_src_proto_paths_returns _ cp Hps) as [ps ->].
  by eexists.
Qed.

(** C9: [_normalize_artifact_config] rewrites [service_yaml], [gapic_yaml]
    and [src_proto_paths] only: the name, the language, the type, the
    publish targets and all the fields that the loader does not mention are
    those of its argument. *)
Theorem normalize_artifact_config_frame {R : Type} (artifact_config : Artifact.t R)
    (artman_config_path : string) (normalized : Artifact.t R) :
  _normalize_artifact_config artifact_config artman_config_path = Return normalized →
  Artifact.name normalized = Artifact.name artifact_config
  ∧ Artifact.language normalized = Artifact.language artifact_config
  ∧ Artifact.type normalized = Artifact.type artifact_config
  ∧ Artifact.publish_targets normalized = Artifact.publish_targets artifact_config
  ∧ Artifact.other normalized = Artifact.other artifact_config.
Proof.
  intros (sy & gy & ps & _ & _ & _ & ->)%normalize_artifact_config_Return. done.
Qed.

Lemma normalize_artifact_config_frame_witness :
  Artifact.name library_artifact_normalized = Artifact.name library_artifact
  ∧ Artifact.language library_artifact_normalized = Artifact.language library_artifact
  ∧ Artifact.type library_artifact_normalized = Artifact.type library_artifact
  ∧ Artifact.publish_targets library_artifact_normalized =
      Artifact.publish_targets library_artifact
  ∧ Artifact.other library_artifact_normalized = Artifact.other library_artifact.
Proof.
  apply (normalize_artifact_config_frame library_artifact "/conf/artman.yaml"
           library_artifact_normalized).
  vm_compute. reflexivity.
Defined.

Lemma traversal_error_field field field' cp :
  traversal_error field cp = traversal_error field' cp → field = field'.
Proof. by intros [= ->]. Qed.

(** C10: an empty [service_yaml] is skipped by the normalization: it is
    empty in the outcome, and the normalization does not raise the traversal
    error of the field [service_yaml]; likewise for [gapic_yaml]. *)
Theorem normalize_artifact_config_unset {R : Type} (artifact_config : Artifact.t R)
    (artman_config_path : string) :
  (Artifact.service_yaml artifact_config = "" →
     (∀ normalized,
        _normalize_artifact_config artifact_config artman_config_path = Return normalized →
        Artifact.service_yaml normalized = "")
     ∧ _normalize_artifact_config artifact_config artman_config_path ≠
         Raise (traversal_error "service_yaml" artman_config_path))
  ∧ (Artifact.gapic_yaml artifact_config = "" →
     (∀ normalized,
        _normalize_artifact_config artifact_config artman_config_path = Return normalized →
        Artifact.gapic_yaml normalized = "")
     ∧ _normalize_artifact_config artifact_config artman_config_path ≠
         Raise (traversal_error "gapic_yaml" artman_config_path)).
Proof.
  split; intros Hempty; split.
  - intros n (sy & gy & ps & Hsy & _ & _ & ->)%normalize_artifact_config_Return.
    by apply normalize_if_set_spec in Hsy as [[_ ->]|[? _]].
  - intros [[? _]|[[_ E]|E]]%normalize_artifact_config_Raise; [done | |];
      by apply traversal_error_field in E.
  - intros n (sy & gy & ps & _ & Hgy & _ & ->)%normalize_artifact_config_Return.
    by apply normalize_if_set_spec in Hgy as [[_ ->]|[? _]].
  - intros [[_ E]|[[? _]|E]]%normalize_artifact_config_Raise; [|done|];
      by apply traversal_error_field in E.
Qed.

Lemma normalize_artifact_config_unset_witness :
  (∀ normalized,
     _normalize_artifact_config library_artifact "/conf/artman.yaml" = Return normalized →
     Artifact.gapic_yaml normalized = "")
  ∧ _normalize_artifact_config library_artifact "/conf/artman.yaml" ≠
      Raise (traversal_error "gapic_yaml" "/conf/artman.yaml").
Proof.
  apply (proj2 (normalize_artifact_config_unset library_artifact "/conf/artman.yaml")).
  reflexivity.
Defined.

(** C3: [_normalize_artifact_config] rewrites [src_proto_paths] entry by
    entry, in order: behind an exclusion marker the rest of the entry is
    normalized and the marker put back, any other entry is normalized whole;
    it returns whenever no path field traverses.  Loading [foo] from the
    document of the end-to-end scenario at [/home/u/conf/artman.yaml] gives
    the language PYTHON, the type GRPC and the two source paths under
    [/home/u/conf]. *)
Theorem normalize_src_proto_paths_scenario {R U : Type} (merge_other : R → R → R)
    (artifact_config : Artifact.t R) (artman_config_path : string) :
  (∀ normalized,
     _normalize_artifact_config artifact_config artman_config_path = Return normalized →
     Forall2 (src_proto_path_rewritten artman_config_path)
       (Artifact.src_proto_paths artifact_config) (Artifact.src_proto_paths normalized))
  ∧ (¬ traverses (Artifact.service_yaml artifact_config) →
     ¬ traverses (Artifact.gapic_yaml artifact_config) →
     Forall (λ entry, ¬ traverses (entry_path entry))
       (Artifact.src_proto_paths artifact_config) →
     ∃ normalized,
       _normalize_artifact_config artifact_config artman_config_path = Return normalized)
  ∧ (∀ (w : World R U) (oc oa : R) (log : list log_record),
       path_exists w scenario_path = true →
       read_config w scenario_path = Return (scenario_document oc oa) →
       ∃ effective,
         load_artifact_config merge_other w scenario_path "foo" log = (Return effective, log)
         ∧ Artifact.language effective = PYTHON
         ∧ Artifact.type effective = GRPC
         ∧ Artifact.src_proto_paths effective =
             ["/home/u/conf/protos/x.proto"; "-/home/u/conf/protos/y.proto"]).
Proof.
  split_and!.
  - intros n (sy & gy & ps & _ & _ & Hps & ->)%normalize_artifact_config_Return.
    by apply normalize_src_proto_paths_spec.
  - apply normalize_artifact_config_returns.
  - intros w oc oa log He Hr.
    rewrite (load_artifact_config_ok _ _ _ _ (scenario_document oc oa)) by done.
    eexists. split; [reflexivity|]. done.
Qed.

Lemma normalize_src_proto_paths_scenario_witness :
  ∃ effective,
    load_artifact_config merge_unit
      (single_file_world scenario_path (scenario_document tt tt)) scenario_path "foo" [] =
      (Return effective, [])
    ∧ Artifact.language effective = PYTHON
    ∧ Artifact.type effective = GRPC
    ∧ Artifact.src_proto_paths effective =
        ["/home/u/conf/protos/x.proto"; "-/home/u/conf/protos/y.proto"].
Proof.
  apply (proj2 (proj2 (normalize_src_proto_paths_scenario (U := unit) merge_unit
                         library_artifact scenario_path))
           (single_file_world scenario_path (scenario_document tt tt)) tt tt []);
    reflexivity.
Defined.

(** ** The merge of [common] and the selected artifact *)

Lemma merge_string_spec common override :
  override_or_inherit "" common override (merge_string common override).
Proof. unfold override_or_inherit, merge_string. by destruct override. Qed.

Lemma merge_language_spec common override :
  override_or_inherit LANGUAGE_UNSPECIFIED common override (merge_language common override).
Proof. unfold override_or_inherit, merge_language. by case_bool_decide. Qed.

Lemma merge_type_spec common override :
  override_or_inherit TYPE_UNSPECIFIED common override (merge_type common override).
Proof. unfold override_or_inherit, merge_type. by case_bool_decide. Qed.

Lemma override_or_inherit_unique {A : Type} `{EqDecision A}
    (unset common override merged merged' : A) :
  override_or_inherit unset common override merged →
  override_or_inherit unset common override merged' →
  merged = merged'.
Proof.
  intros [H1 H2] [H1' H2']. destruct (decide (override = unset)) as [E|E].
  - by rewrite H2, H2'.
  - by rewrite H1, H1'.
Qed.

Lemma load_artifact_config_found {R U : Type} (merge_other : R → R → R) (w : World R U)
    path name log doc override :
  path_exists w path = true → read_config w path = Return doc →
  _validate_artman_config doc = None →
  override ∈ Config.artifacts doc → Artifact.name override = name →
  load_artifact_config merge_other w path name log =
    (_ ← _validate_artifact_config (MergeFrom merge_other (Config.common doc) override);
     _normalize_artifact_config (MergeFrom merge_other (Config.common doc) override) path,
     log).
Proof.
  intros He Hr Hv Hin Hname.
  rewrite (load_artifact_config_ok _ _ _ _ doc) by done. f_equal.
  apply validate_artman_config_valid in Hv as [Hnd _].
  apply list_elem_of_split in Hin as (pre & post & E). rewrite E in *.
  apply find_artifact_found; [|done].
  rewrite fmap_app, fmap_cons in Hnd. apply NoDup_app in Hnd as (_ & Hnd & _).
  intros Hpre. apply (Hnd _ Hpre). rewrite Hname. by left.
Qed.

(** C1 (amended): when the named artifact is in a valid document, what
    [load_artifact_config] returns has each singular field from the override
    when the override sets it and from [common] otherwise, [service_yaml]
    and [gapic_yaml] being normalized afterwards; and it has, for the
    repeated fields, the sequence of [common] followed by that of the
    override, the entries of [src_proto_paths] being normalized afterwards.
    It does return when the merged language and type are compatible and no
    merged path traverses. *)
Theorem load_artifact_config_merge {R U : Type} (merge_other : R → R → R)
    (w : World R U) (artman_config_path artifact_name : string)
    (log : list log_record) (doc : Config.t R) (override : Artifact.t R) :
  path_exists w artman_config_path = true →
  read_config w artman_config_path = Return doc →
  _validate_artman_config doc = None →
  override ∈ Config.artifacts doc →
  Artifact.name override = artifact_name →
  (∀ effective log',
     load_artifact_config merge_other w artman_config_path artifact_name log =
       (Return effective, log') →
     log' = log
     ∧ override_or_inherit "" (Artifact.name (Config.common doc))
         (Artifact.name override) (Artifact.name effective)
     ∧ override_or_inherit LANGUAGE_UNSPECIFIED (Artifact.language (Config.common doc))
         (Artifact.language override) (Artifact.language effective)
     ∧ override_or_inherit TYPE_UNSPECIFIED (Artifact.type (Config.common doc))
         (Artifact.type override) (Artifact.type effective)
     ∧ (∃ merged,
          override_or_inherit "" (Artifact.service_yaml (Config.common doc))
            (Artifact.service_yaml override) merged
          ∧ yaml_path_rewritten artman_config_path "service_yaml" merged
              (Artifact.service_yaml effective))
     ∧ (∃ merged,
          override_or_inherit "" (Artifact.gapic_yaml (Config.common doc))
            (Artifact.gapic_yaml override) merged
          ∧ yaml_path_rewritten artman_config_path "gapic_yaml" merged
              (Artifact.gapic_yaml effective))
     ∧ Forall2 (src_proto_path_rewritten artman_config_path)
         (Artifact.src_proto_paths (Config.common doc) ++ Artifact.src_proto_paths override)
         (Artifact.src_proto_paths effective)
     ∧ Artifact.publish_targets effective =
         Artifact.publish_targets (Config.common doc) ++ Artifact.publish_targets override
     ∧ Artifact.other effective =
         merge_other (Artifact.other (Config.common doc)) (Artifact.other override))
  ∧ (∀ language type service_yaml gapic_yaml,
       override_or_inherit LANGUAGE_UNSPECIFIED (Artifact.language (Config.common doc))
         (Artifact.language override) language →
       override_or_inherit TYPE_UNSPECIFIED (Artifact.type (Config.common doc))
         (Artifact.type override) type →
       override_or_inherit "" (Artifact.service_yaml (Config.common doc))
         (Artifact.service_yaml override) service_yaml →
       override_or_inherit "" (Artifact.gapic_yaml (Config.common doc))
         (Artifact.gapic_yaml override) gapic_yaml →
       ¬ (language = NODEJS ∧ type = GRPC) →
       ¬ traverses service_yaml → ¬ traverses gapic_yaml →
       Forall (λ entry, ¬ traverses (entry_path entry))
         (Artifact.src_proto_paths (Config.common doc)
            ++ Artifact.src_proto_paths override) →
       ∃ effective,
         load_artifact_config merge_other w artman_config_path artifact_name log =
           (Return effective, log)).
Proof.
  intros He Hr Hv Hin Hname.
  rewrite (load_artifact_config_found _ _ _ _ _ doc override) by done.
  set (merged := MergeFrom merge_other (Config.common doc) override).
  split.
  - intros effective log' [= Hload <-]. split; [done|].
    apply bind_Return in Hload as (_ & _ & Hn).
    apply normalize_artifact_config_Return in Hn
      as (sy & gy & ps & Hsy%normalize_if_set_spec & Hgy%normalize_if_set_spec
          & Hps%normalize_src_proto_paths_spec & ->).
    simpl. split_and!; try done.
    + apply merge_string_spec.
    + apply merge_language_spec.
    + apply merge_type_spec.
    + eexists. split; [apply merge_string_spec | done].
    + eexists. split; [apply merge_string_spec | done].
  - intros language type service_yaml gapic_yaml Hl Ht Hsy Hgy Hcompat Htsy Htgy Hps.
    assert (Artifact.language merged = language) as El
      by (eapply override_or_inherit_unique; [apply merge_language_spec | done]).
    assert (Artifact.type merged = type) as Et
      by (eapply override_or_inherit_unique; [apply merge_type_spec | done]).
    assert (Artifact.service_yaml merged = service_yaml) as Esy
      by (eapply override_or_inherit_unique; [apply merge_string_spec | done]).
    assert (Artifact.gapic_yaml merged = gapic_yaml) as Egy
      by (eapply override_or_inherit_unique; [apply merge_string_spec | done]).
    rewrite <- El, <- Et in Hcompat. rewrite <- Esy in Htsy. rewrite <- Egy in Htgy.
    apply validate_artifact_config_compatible in Hcompat.
    rewrite Hcompat. simpl.
    destruct (normalize_artifact_config_returns merged artman_config_path)
      as [effective ->]; [done.. |]. by eexists.
Qed.

Lemma load_artifact_config_merge_witness :
  [] = ([] : list log_record)
  ∧ override_or_inherit "" "" "foo" "foo"
  ∧ override_or_inherit LANGUAGE_UNSPECIFIED PYTHON LANGUAGE_UNSPECIFIED PYTHON
  ∧ override_or_inherit TYPE_UNSPECIFIED TYPE_UNSPECIFIED GRPC GRPC
  ∧ (∃ merged,
       override_or_inherit "" "" "" merged
       ∧ yaml_path_rewritten "/conf/artman.yaml" "service_yaml" merged "")
  ∧ (∃ merged,
       override_or_inherit "" "" "" merged
       ∧ yaml_path_rewritten "/conf/artman.yaml" "gapic_yaml" merged "")
  ∧ Forall2 (src_proto_path_rewritten "/conf/artman.yaml")
      (["/protos/common"] ++ ["/protos/foo"]) ["/protos/common"; "/protos/foo"]
  ∧ ([] : list PublishTarget.t) = [] ++ []
  ∧ tt = merge_unit tt tt.
Proof.
  apply (proj1 (load_artifact_config_merge merge_unit
                  (single_file_world "/conf/artman.yaml" shared_protos_document)
                  "/conf/artman.yaml" "foo" [] shared_protos_document
                  shared_protos_override
                  eq_refl eq_refl eq_refl (list_elem_of_here _ _) eq_refl)
           shared_protos_effective []).
  vm_compute. reflexivity.
Defined.

(** C1, as stated, fails: loading [foo] from a document whose [common]
    section and whose artifact [foo] both set [src_proto_paths] returns the
    entries of [common] followed by those of the artifact, not the sequence
    of the artifact alone. *)
Lemma merge_repeated_field_counterexample :
  load_artifact_config merge_unit
    (single_file_world "/conf/artman.yaml" shared_protos_document)
    "/conf/artman.yaml" "foo" [] = (Return shared_protos_effective, [])
  ∧ shared_protos_override ∈ Config.artifacts shared_protos_document
  ∧ Artifact.name shared_protos_override = "foo"
  ∧ Artifact.src_proto_paths shared_protos_override = ["/protos/foo"]
  ∧ Artifact.src_proto_paths shared_protos_effective = ["/protos/common"; "/protos/foo"]
  ∧ Artifact.src_proto_paths shared_protos_effective ≠
      Artifact.src_proto_paths shared_protos_override.
Proof.
  split_and!; [by vm_compute | by left | done | done | done | discriminate].
Qed.

(** ** The user configuration *)

Lemma expanduser_no_tilde {R U : Type} (w : World R U) path :
  ¬ has_prefix "~" path → expanduser w path = path.
Proof.
  intros H%startswith_false. unfold expanduser. by rewrite H.
Qed.

Lemma expanduser_home {R U : Type} (w : World R U) home rest :
  userhome w "" = Some home →
  expanduser w ("~/" +:+ rest) = Py.rstrip home posixpath.sep +:+ "/" +:+ rest.
Proof.
  intros H. unfold expanduser. rewrite !append_cons, append_nil. simpl. rewrite H.
  destruct (Py.rstrip home posixpath.sep); by rewrite ?append_cons, ?append_nil.
Qed.

(** A user configuration that parses is returned, and nothing is logged;
    an exception that the [except] clause does not name propagates, and
    nothing is logged either. *)
Lemma read_user_config_parsed {R U : Type} (UserConfig_default : U) (w : World R U)
    path log config_pb :
  isfile w (expanduser w path) = true →
  read_user_config_file w (expanduser w path) = Return config_pb →
  read_user_config UserConfig_default w path log = (Return config_pb, log).
Proof. intros Hf Hr. unfold read_user_config. by rewrite Hf, Hr. Qed.

Lemma read_user_config_other_exception {R U : Type} (UserConfig_default : U)
    (w : World R U) path log e :
  isfile w (expanduser w path) = true →
  read_user_config_file w (expanduser w path) = Raise e →
  is_parse_failure e = false →
  read_user_config UserConfig_default w path log = (Raise e, log).
Proof. intros Hf Hr Hp. unfold read_user_config. by rewrite Hf, Hr, Hp. Qed.

Example expanduser_examples :
  expanduser home_world "~/.artman/config.yaml" = "/home/u/.artman/config.yaml"
  ∧ expanduser home_world "~" = "/home/u"
  ∧ expanduser home_world "~bob/config.yaml" = "~bob/config.yaml"
  ∧ expanduser home_world "conf/~/config.yaml" = "conf/~/config.yaml".
Proof. done. Qed.

(** * Further properties of the loader *)

(** ** Strings and paths *)

Lemma startswith_cons (b : ascii) (s : string) (a : ascii) (pre : string) :
  Py.startswith (String b s) (String a pre) =
    (if Ascii.eqb a b then Py.startswith s pre else false).
Proof. reflexivity. Qed.

Lemma append_assoc (a b c : string) : (a +:+ b) +:+ c = a +:+ (b +:+ c).
Proof.
  induction a as [|x a IH]; [done|]. by rewrite !append_cons, IH.
Qed.

Lemma has_prefix_trans a b c : has_prefix a b → has_prefix b c → has_prefix a c.
Proof. intros [r ->] [r' ->]. exists (r +:+ r'). by rewrite append_assoc. Qed.

Lemma traverses_prefix d p : has_prefix d p → traverses d → traverses p.
Proof.
  intros [r ->] [Hp|(a & b & ->)].
  - left. eapply has_prefix_trans; [done | by exists r].
  - right. exists a, (b +:+ r). by rewrite !append_assoc.
Qed.

Lemma rstrip_empty s c : Py.rstrip s c = "" ↔ Py.all_char s c = true.
Proof.
  induction s as [|a s IH]; simpl; [done|].
  destruct (Py.rstrip s c) eqn:E.
  - destruct (Ascii.eqb a c); simpl; [|done].
    destruct IH as [IH _]. by rewrite IH.
  - split; [done|]. intros [_ H]%andb_true_iff. apply IH in H. done.
Qed.

Lemma rstrip_prefix s c : has_prefix (Py.rstrip s c) s.
Proof.
  induction s as [|a s [r IH]]; simpl; [by exists ""|].
  destruct (Py.rstrip s c) eqn:E.
  - destruct (Ascii.eqb a c); [by eexists|].
    exists s. by rewrite append_cons, append_nil.
  - exists r. rewrite append_cons. by rewrite <- IH.
Qed.

Lemma upto_last_prefix s c : has_prefix (Py.upto_last s c) s.
Proof.
  induction s as [|a s [r IH]]; [by exists ""|].
  cbn [Py.upto_last]. destruct (Py.contains _ (String a s)); [|by eexists].
  exists r. rewrite append_cons. by rewrite <- IH.
Qed.

Lemma dirname_prefix p : has_prefix (posixpath.dirname p) p.
Proof.
  unfold posixpath.dirname.
  destruct (_ && _); [|apply upto_last_prefix].
  eapply has_prefix_trans; [apply rstrip_prefix | apply upto_last_prefix].
Qed.

Lemma dirname_abs p : has_prefix "/" p → has_prefix "/" (posixpath.dirname p).
Proof.
  intros [r ->]. unfold posixpath.dirname. rewrite append_cons, append_nil.
  cbn [Py.upto_last]. replace (Py.contains _ _) with true by done.
  set (h := Py.upto_last r posixpath.sep). cbn [Py.truthy Py.all_char andb].
  replace (Ascii.eqb "/" posixpath.sep) with true by done. cbn [andb].
  destruct (Py.all_char h posixpath.sep) eqn:E; cbn [negb].
  - by exists h.
  - cbn [Py.rstrip]. destruct (Py.rstrip h posixpath.sep) eqn:Er.
    + apply rstrip_empty in Er. congruence.
    + by eexists.
Qed.

Lemma endswith_char_app r s c :
  s ≠ "" → Py.endswith_char (r +:+ s) c = Py.endswith_char s c.
Proof.
  intros Hs. induction r as [|a r IH]; [done|].
  rewrite append_cons. cbn [Py.endswith_char].
  destruct (r +:+ s) eqn:E; [|done]. destruct r; [|done].
  rewrite append_nil in E. done.
Qed.

(** Where a separator followed by two dots can lie in a concatenation: in
    one of the two parts, or across the seam. *)
Lemma contains_parent_app a b :
  has_substring "/.." (a +:+ b) →
  has_substring "/.." a ∨ has_substring "/.." b
  ∨ (has_suffix "/" a ∧ has_prefix ".." b)
  ∨ (has_suffix "/." a ∧ has_prefix "." b).
Proof.
  intros H%contains_spec. revert H. induction a as [|c a IH]; intros H.
  - right; left. by apply contains_spec.
  - rewrite append_cons in H. cbn [Py.contains] in H.
    apply orb_true_iff in H as [H|H].
    + rewrite startswith_cons in H. destruct (Ascii.eqb_spec "/" c) as [<-|]; [|done].
      destruct a as [|c1 a].
      * right; right; left. split; [by exists "" | by apply startswith_spec].
      * rewrite append_cons, startswith_cons in H.
        destruct (Ascii.eqb_spec "." c1) as [<-|]; [|done].
        destruct a as [|c2 a].
        -- right; right; right. split; [by exists "" | by apply startswith_spec].
        -- rewrite append_cons, startswith_cons in H.
           destruct (Ascii.eqb_spec "." c2) as [<-|]; [|done].
           left. by exists "", a.
    + apply IH in H as [(x & y & ->)|[H|[[[r ->] Hp]|[[r ->] Hp]]]].
      * left. by exists (String c x), y.
      * right; left. done.
      * right; right; left. split; [by exists (String c r) | done].
      * right; right; right. split; [by exists (String c r) | done].
Qed.

Lemma prefix_parent_app a b :
  has_prefix ".." (a +:+ b) →
  has_prefix ".." a ∨ (a = "" ∧ has_prefix ".." b) ∨ (a = "." ∧ has_prefix "." b).
Proof.
  intros H%startswith_spec. destruct a as [|c1 a].
  - right; left. split; [done | by apply startswith_spec].
  - rewrite append_cons, startswith_cons in H.
    destruct (Ascii.eqb_spec "." c1) as [<-|]; [|done].
    destruct a as [|c2 a].
    + right; right. split; [done | by apply startswith_spec].
    + rewrite append_cons, startswith_cons in H.
      destruct (Ascii.eqb_spec "." c2) as [<-|]; [|done].
      left. by exists a.
Qed.

Lemma join_abs d p : has_prefix "/" d → has_prefix "/" (posixpath.join d p).
Proof.
  intros [r ->]. unfold posixpath.join.
  destruct (Py.startswith p "/") eqn:E; [by apply startswith_spec|].
  destruct (_ || _); rewrite !append_cons, !append_nil; by eexists.
Qed.

Lemma join_not_traverses d p :
  ¬ traverses d → ¬ traverses p → ¬ traverses (posixpath.join d p).
Proof.
  intros Hd Hp. unfold posixpath.join.
  destruct (Py.startswith p "/"); [done|].
  assert (∀ q, ¬ has_prefix ".." (String "/" q)) as Hsep2
    by (by intros q H%startswith_spec).
  assert (∀ q, ¬ has_prefix "." (String "/" q)) as Hsep1
    by (by intros q H%startswith_spec).
  destruct (negb (Py.truthy d) || Py.endswith_char d posixpath.sep) eqn:E.
  - intros [H|H].
    + apply prefix_parent_app in H as [H|[[-> H]|[-> _]]]; [| |done].
      * apply Hd. by left.
      * apply Hp. by left.
    + apply contains_parent_app in H as [H|[H|[[_ H]|[[r ->] _]]]].
      * apply Hd. by right.
      * apply Hp. by right.
      * apply Hp. by left.
      * rewrite endswith_char_app in E by done.
        by destruct r.
  - rewrite append_cons, append_nil. intros [H|H].
    + apply prefix_parent_app in H as [H|[[_ H]|[_ H]]].
      * apply Hd. by left.
      * by apply Hsep2 in H.
      * by apply Hsep1 in H.
    + apply contains_parent_app in H as [H|[H|[[_ H]|[_ H]]]].
      * apply Hd. by right.
      * apply contains_spec in H. cbn [Py.contains] in H.
        apply orb_true_iff in H as [H|H].
        -- apply Hp. left. by apply startswith_spec.
        -- apply Hp. right. by apply contains_spec.
      * by apply Hsep2 in H.
      * by apply Hsep1 in H.
Qed.

(** ** What normalization guarantees under an absolute configuration path *)

Lemma not_traverses_intro path :
  Py.startswith path ".." || Py.contains "/.." path = false → ¬ traverses path.
Proof. apply traverses_false. Qed.

Lemma abs_not_marker s : has_prefix "/" s → ¬ has_prefix "-" s.
Proof. intros [r ->] H%startswith_spec. done. Qed.

Lemma normalize_path_resolved_fix path cp field :
  resolved path → _normalize_path path cp field = Return path.
Proof.
  intros [Ha%isabs_spec Ht]. rewrite normalize_path_ok by done. by rewrite Ha.
Qed.

Lemma resolved_of_normalize_path path cp field normalized :
  has_prefix "/" cp → ¬ traverses cp →
  _normalize_path path cp field = Return normalized → resolved normalized.
Proof.
  intros Habs Hclean Hn.
  pose proof (normalize_path_returns _ _ _ _ Hn) as Hp.
  rewrite normalize_path_ok in Hn by done. injection Hn as <-.
  destruct (posixpath.isabs path) eqn:E.
  - split; [by apply isabs_spec | done].
  - split.
    + by apply join_abs, dirname_abs.
    + apply join_not_traverses; [|done].
      intros Hd. apply Hclean. eapply traverses_prefix; [apply dirname_prefix | done].
Qed.

(** X1: against an absolute configuration path without traversal, every path
    that [_normalize_path] returns is absolute and without traversal. *)
Theorem normalize_path_resolved (path artman_config_path field normalized : string) :
  has_prefix "/" artman_config_path → ¬ traverses artman_config_path →
  _normalize_path path artman_config_path field = Return normalized →
  resolved normalized.
Proof.
  intros Habs Hclean Hn.
  assert (¬ traverses path) as Hp by (by eapply normalize_path_returns).
  assert (¬ traverses (posixpath.dirname artman_config_path)) as Hdir.
  { intros Hd. apply Hclean. eapply traverses_prefix; [apply dirname_prefix | done]. }
  rewrite normalize_path_ok in Hn by done. injection Hn as <-.
  destruct (posixpath.isabs path) eqn:E.
  - split; [by apply isabs_spec | done].
  - split; [by apply join_abs, dirname_abs | by apply join_not_traverses].
Qed.

Lemma normalize_path_resolved_witness : resolved "/conf/protos/x.proto".
Proof.
  apply (normalize_path_resolved "protos/x.proto" "/conf/artman.yaml" "src_proto_paths"
           "/conf/protos/x.proto").
  - by exists "conf/artman.yaml".
  - by apply not_traverses_intro.
  - reflexivity.
Defined.

(** Without the hypothesis on the configuration path the outcome can
    traverse, and is then refused when it is normalized again. *)
Example normalize_path_relative_config :
  _normalize_path "x.proto" "../conf/artman.yaml" "src_proto_paths" =
    Return "../conf/x.proto"
  ∧ _normalize_path "../conf/x.proto" "../conf/artman.yaml" "src_proto_paths" =
      Raise (traversal_error "src_proto_paths" "../conf/artman.yaml").
Proof. done. Qed.

Lemma yaml_path_resolved cp field path path' :
  has_prefix "/" cp → ¬ traverses cp →
  yaml_path_rewritten cp field path path' → path' = "" ∨ resolved path'.
Proof.
  intros Habs Hclean [[_ ->]|[_ Hn]]; [by left | right].
  by eapply resolved_of_normalize_path.
Qed.

Lemma entry_path_marker p : entry_path ("-" +:+ p) = p.
Proof. done. Qed.

Lemma entry_path_abs p : has_prefix "/" p → entry_path p = p.
Proof.
  intros H%abs_not_marker%startswith_false. unfold entry_path. by rewrite H.
Qed.

Lemma src_proto_path_resolved cp entry entry' :
  has_prefix "/" cp → ¬ traverses cp →
  src_proto_path_rewritten cp entry entry' → resolved (entry_path entry').
Proof.
  intros Habs Hclean [rest p Hn|e p _ Hn];
    pose proof (resolved_of_normalize_path _ _ _ _ Habs Hclean Hn) as Hr.
  - by rewrite entry_path_marker.
  - rewrite entry_path_abs; [done | apply Hr].
Qed.

Lemma resolved_of_normalize_artifact_config {R : Type} (cfg : Artifact.t R) cp normalized :
  has_prefix "/" cp → ¬ traverses cp →
  _normalize_artifact_config cfg cp = Return normalized →
  (Artifact.service_yaml normalized = "" ∨ resolved (Artifact.service_yaml normalized))
  ∧ (Artifact.gapic_yaml normalized = "" ∨ resolved (Artifact.gapic_yaml normalized))
  ∧ Forall (λ entry, resolved (entry_path entry)) (Artifact.src_proto_paths normalized).
Proof.
  intros Habs Hclean
    (sy & gy & ps & Hsy%normalize_if_set_spec & Hgy%normalize_if_set_spec
     & Hps%normalize_src_proto_paths_spec & ->)%normalize_artifact_config_Return.
  simpl. split_and!.
  - by eapply yaml_path_resolved.
  - by eapply yaml_path_resolved.
  - induction Hps as [|e e' l l' He _ IH]; constructor; [|done].
    by eapply src_proto_path_resolved.
Qed.

(** X2: against an absolute configuration path without traversal, what
    [_normalize_artifact_config] returns has [service_yaml] and
    [gapic_yaml] empty or absolute and without traversal, and the path of
    every entry of [src_proto_paths], behind its exclusion marker if it has
    one, absolute and without traversal. *)
Theorem normalize_artifact_config_resolved {R : Type} (artifact_config : Artifact.t R)
    (artman_config_path : string) (normalized : Artifact.t R) :
  has_prefix "/" artman_config_path → ¬ traverses artman_config_path →
  _normalize_artifact_config artifact_config artman_config_path = Return normalized →
  (Artifact.service_yaml normalized = "" ∨ resolved (Artifact.service_yaml normalized))
  ∧ (Artifact.gapic_yaml normalized = "" ∨ resolved (Artifact.gapic_yaml normalized))
  ∧ Forall (λ entry, resolved (entry_path entry)) (Artifact.src_proto_paths normalized).
Proof.
  intros Habs Hclean Hn.
  apply normalize_artifact_config_Return in Hn as (sy & gy & ps & Hsy & Hgy & Hps & ->).
  apply normalize_if_set_spec in Hsy, Hgy. apply normalize_src_proto_paths_spec in Hps.
  simpl. split_and!.
  - by apply (yaml_path_resolved artman_config_path "service_yaml"
                (Artifact.service_yaml artifact_config)).
  - by apply (yaml_path_resolved artman_config_path "gapic_yaml"
                (Artifact.gapic_yaml artifact_config)).
  - apply Forall_forall. intros entry' Hin.
    apply list_elem_of_lookup in Hin as [i Hi].
    destruct (Forall2_lookup_r _ _ _ _ _ Hps Hi) as (entry & _ & He).
    by apply (src_proto_path_resolved artman_config_path entry).
Qed.

Lemma normalize_artifact_config_resolved_witness :
  (Artifact.service_yaml library_sources_normalized = ""
   ∨ resolved (Artifact.service_yaml library_sources_normalized))
  ∧ (Artifact.gapic_yaml library_sources_normalized = ""
     ∨ resolved (Artifact.gapic_yaml library_sources_normalized))
  ∧ Forall (λ entry, resolved (entry_path entry))
      (Artifact.src_proto_paths library_sources_normalized).
Proof.
  apply (normalize_artifact_config_resolved library_sources_artifact "/conf/artman.yaml"
           library_sources_normalized).
  - by exists "conf/artman.yaml".
  - by apply not_traverses_intro.
  - reflexivity.
Defined.

Lemma normalize_if_set_fix path cp field :
  path = "" ∨ resolved path → normalize_if_set path cp field = Return path.
Proof.
  intros [->|H]; [done|]. unfold normalize_if_set.
  destruct (Py.truthy path); [by apply normalize_path_resolved_fix | done].
Qed.

Lemma normalize_src_proto_path_fix entry cp :
  resolved (entry_path entry) → normalize_src_proto_path entry cp = Return entry.
Proof.
  unfold normalize_src_proto_path, entry_path.
  destruct (Py.startswith entry "-") eqn:E; intros H.
  - rewrite normalize_path_resolved_fix by done. simpl.
    apply startswith_marker in E. by rewrite <- E.
  - by apply normalize_path_resolved_fix.
Qed.

Lemma normalize_src_proto_paths_fix l cp :
  Forall (λ entry, resolved (entry_path entry)) l →
  normalize_src_proto_paths l cp = Return l.
Proof.
  induction 1 as [|e l He _ IH]; simpl; [done|].
  by rewrite normalize_src_proto_path_fix, IH.
Qed.

(** An artifact whose path fields are empty or resolved is returned as it
    is, whatever the configuration path. *)
Lemma normalize_artifact_config_fix {R : Type} (cfg : Artifact.t R) cp :
  Artifact.service_yaml cfg = "" ∨ resolved (Artifact.service_yaml cfg) →
  Artifact.gapic_yaml cfg = "" ∨ resolved (Artifact.gapic_yaml cfg) →
  Forall (λ entry, resolved (entry_path entry)) (Artifact.src_proto_paths cfg) →
  _normalize_artifact_config cfg cp = Return cfg.
Proof.
  intros Hsy Hgy Hps. unfold _normalize_artifact_config.
  rewrite !normalize_if_set_fix, normalize_src_proto_paths_fix by done.
  by destruct cfg.
Qed.

(** X3: normalization of an artifact is idempotent: what
    [_normalize_artifact_config] returns against an absolute configuration
    path without traversal is returned unchanged when it is normalized
    again, against any configuration path. *)
Theorem normalize_artifact_config_idempotent {R : Type} (artifact_config : Artifact.t R)
    (artman_config_path other_config_path : string) (normalized : Artifact.t R) :
  has_prefix "/" artman_config_path → ¬ traverses artman_config_path →
  _normalize_artifact_config artifact_config artman_config_path = Return normalized →
  _normalize_artifact_config normalized other_config_path = Return normalized.
Proof.
  intros Habs Hclean Hn.
  destruct (resolved_of_normalize_artifact_config _ _ _ Habs Hclean Hn)
    as (Hsy & Hgy & Hps).
  by apply normalize_artifact_config_fix.
Qed.

Lemma normalize_artifact_config_idempotent_witness :
  _normalize_artifact_config library_sources_normalized "elsewhere/artman.yaml" =
    Return library_sources_normalized.
Proof.
  apply (normalize_artifact_config_idempotent library_sources_artifact
           "/conf/artman.yaml" "elsewhere/artman.yaml" library_sources_normalized).
  - by exists "conf/artman.yaml".
  - by apply not_traverses_intro.
  - reflexivity.
Defined.

Lemma marker_preserved cp entry entry' :
  has_prefix "/" cp → src_proto_path_rewritten cp entry entry' →
  (has_prefix "-" entry ↔ has_prefix "-" entry').
Proof.
  intros Habs [rest p Hn|e p He Hn].
  - split; intros _; by eexists.
  - split; [done|]. intros Hp. exfalso. revert Hp. apply abs_not_marker.
    pose proof (normalize_path_returns _ _ _ _ Hn) as Ht.
    rewrite normalize_path_ok in Hn by done. injection Hn as <-.
    destruct (posixpath.isabs e) eqn:E; [by apply isabs_spec|].
    by apply join_abs, dirname_abs.
Qed.

(** X4: against an absolute configuration path, normalization keeps the
    exclusions: an entry of the returned [src_proto_paths] starts with the
    exclusion marker exactly when the entry it comes from does. *)
Theorem normalize_artifact_config_exclusions {R : Type} (artifact_config : Artifact.t R)
    (artman_config_path : string) (normalized : Artifact.t R) :
  has_prefix "/" artman_config_path →
  _normalize_artifact_config artifact_config artman_config_path = Return normalized →
  Forall2 (λ entry entry', has_prefix "-" entry ↔ has_prefix "-" entry')
    (Artifact.src_proto_paths artifact_config) (Artifact.src_proto_paths normalized).
Proof.
  intros Habs
    (sy & gy & ps & _ & _ & Hps%normalize_src_proto_paths_spec & ->)
      %normalize_artifact_config_Return.
  simpl. eapply Forall2_impl; [done|]. intros e e'. by apply marker_preserved.
Qed.

Lemma normalize_artifact_config_exclusions_witness :
  Forall2 (λ entry entry', has_prefix "-" entry ↔ has_prefix "-" entry')
    (Artifact.src_proto_paths library_sources_artifact)
    (Artifact.src_proto_paths library_sources_normalized).
Proof.
  apply (normalize_artifact_config_exclusions library_sources_artifact
           "/conf/artman.yaml" library_sources_normalized).
  - by exists "conf/artman.yaml".
  - reflexivity.
Defined.

(** Under a relative configuration path whose directory starts with the
    marker, an included entry comes out looking like an exclusion. *)
Example normalize_path_marker_directory :
  normalize_src_proto_path "protos/library" "-conf/artman.yaml" =
    Return "-conf/protos/library".
Proof. done. Qed.

(** ** The stages of [load_artifact_config] *)

Lemma bind_of_Return {A B : Type} (a : A) (k : A → result B) : (Return a ≫= k) = k a.
Proof. reflexivity. Qed.

Lemma not_traverses_empty : ¬ traverses "".
Proof. by apply traverses_false. Qed.

Lemma first_match {R : Type} (l : list (Artifact.t R)) (name : string) :
  name ∈ (Artifact.name <$> l) →
  ∃ pre a post, l = pre ++ a :: post ∧ (name ∉ (Artifact.name <$> pre))
    ∧ Artifact.name a = name.
Proof.
  induction l as [|b l IH]; simpl; [by intros ?%elem_of_nil|].
  destruct (decide (Artifact.name b = name)) as [E|E].
  - intros _. exists [], b, l. split_and!; [done | apply not_elem_of_nil | done].
  - intros [?|Hin]%elem_of_cons; [done|].
    destruct (IH Hin) as (pre & a & post & -> & Hpre & Ha).
    exists (b :: pre), a, post. split_and!; [done | | done].
    rewrite fmap_cons. apply not_elem_of_cons. split; [congruence | done].
Qed.

Lemma find_artifact_cases {R : Type} (merge_other : R → R → R) common
    (l : list (Artifact.t R)) path name :
  ((name ∉ (Artifact.name <$> l))
   ∧ find_artifact merge_other common l path name [] =
       Raise (NOT_FOUND_ERROR name (Artifact.name <$> l)))
  ∨ (∃ a, a ∈ l ∧ Artifact.name a = name
     ∧ find_artifact merge_other common l path name [] =
         (_ ← _validate_artifact_config (MergeFrom merge_other common a);
          _normalize_artifact_config (MergeFrom merge_other common a) path)).
Proof.
  destruct (decide (name ∈ (Artifact.name <$> l))) as [Hin|Hin].
  - right. destruct (first_match l name Hin) as (pre & a & post & -> & Hpre & Ha).
    exists a. split_and!; [set_solver | done |]. by apply find_artifact_found.
  - left. split; [done|]. by rewrite find_artifact_not_found.
Qed.

Lemma validate_artifact_config_Return {R : Type} (cfg : Artifact.t R) u :
  _validate_artifact_config cfg = Return u →
  ¬ (Artifact.language cfg = NODEJS ∧ Artifact.type cfg = GRPC).
Proof.
  unfold _validate_artifact_config. intros H [Hl Ht]. by rewrite Hl, Ht in H.
Qed.

Lemma validate_artifact_config_Raise {R : Type} (cfg : Artifact.t R) e :
  _validate_artifact_config cfg = Raise e →
  (Artifact.language cfg = NODEJS ∧ Artifact.type cfg = GRPC) ∧ e = INCOMPATIBLE_ERROR.
Proof.
  unfold _validate_artifact_config.
  repeat case_bool_decide; simpl; intros [= <-]; done.
Qed.

Lemma validate_artifact_config_incompatible {R : Type} (cfg : Artifact.t R) :
  Artifact.language cfg = NODEJS → Artifact.type cfg = GRPC →
  _validate_artifact_config cfg = Raise INCOMPATIBLE_ERROR.
Proof. unfold _validate_artifact_config. by intros -> ->. Qed.

Lemma src_proto_path_rewritten_clean cp entry entry' :
  src_proto_path_rewritten cp entry entry' → ¬ traverses (entry_path entry).
Proof.
  intros [rest p Hn|e p He Hn].
  - rewrite entry_path_marker. by eapply normalize_path_returns.
  - unfold entry_path. rewrite (proj2 (startswith_false _ _) He).
    by eapply normalize_path_returns.
Qed.

Lemma yaml_path_rewritten_clean cp field path path' :
  yaml_path_rewritten cp field path path' → ¬ traverses path.
Proof.
  intros [[-> _]|[_ Hn]]; [apply not_traverses_empty | by eapply normalize_path_returns].
Qed.

Lemma normalize_artifact_config_Return_clean {R : Type} (cfg : Artifact.t R) cp cfg' :
  _normalize_artifact_config cfg cp = Return cfg' →
  ¬ traverses (Artifact.service_yaml cfg) ∧ ¬ traverses (Artifact.gapic_yaml cfg)
  ∧ Forall (λ entry, ¬ traverses (entry_path entry)) (Artifact.src_proto_paths cfg).
Proof.
  intros (sy & gy & ps & Hsy%normalize_if_set_spec & Hgy%normalize_if_set_spec
          & Hps%normalize_src_proto_paths_spec & _)%normalize_artifact_config_Return.
  split_and!.
  - by eapply yaml_path_rewritten_clean.
  - by eapply yaml_path_rewritten_clean.
  - induction Hps as [|e e' l l' He _ IH]; constructor; [|done].
    by eapply src_proto_path_rewritten_clean.
Qed.

Lemma normalize_if_set_traverses path cp field :
  traverses path → normalize_if_set path cp field = Raise (traversal_error field cp).
Proof.
  intros Ht. unfold normalize_if_set. destruct path as [|c path].
  - by destruct not_traverses_empty.
  - by apply normalize_path_traverses.
Qed.

Lemma normalize_src_proto_paths_traverses l cp :
  Exists (λ entry, traverses (entry_path entry)) l →
  normalize_src_proto_paths l cp = Raise (traversal_error "src_proto_paths" cp).
Proof.
  induction l as [|e l IH]; [by intros ?%Exists_nil|].
  intros Hex. simpl. destruct (normalize_src_proto_path e cp) as [err|p] eqn:E.
  - by apply normalize_src_proto_path_Raise in E as [_ ->].
  - apply normalize_src_proto_path_spec, src_proto_path_rewritten_clean in E.
    apply Exists_cons in Hex as [?|Hex]; [done|].
    simpl. by rewrite IH.
Qed.

Section Stages.
Context {R U : Type}.
Variable merge_other : R → R → R.
Variable w : World R U.

(** Every run of [load_artifact_config] ends in one of six ways. *)
Lemma load_artifact_config_cases path name log :
  (path_exists w path = false
   ∧ load_artifact_config merge_other w path name log =
       (Raise (ValueError (Format CONFIG_NOT_FOUND_ERROR_MESSAGE_FORMAT [ArgStr path])),
        log))
  ∨ (∃ e, path_exists w path = true ∧ read_config w path = Raise e
       ∧ is_parse_failure e = true
       ∧ load_artifact_config merge_other w path name log =
           (Raise e,
            log ++ [(ERROR, Format INVALID_CONFIG_ERROR_MESSAGE_FORMAT [ArgStr path])]))
  ∨ (∃ e, path_exists w path = true ∧ read_config w path = Raise e
       ∧ is_parse_failure e = false
       ∧ load_artifact_config merge_other w path name log = (Raise e, log))
  ∨ (∃ doc msg, path_exists w path = true ∧ read_config w path = Return doc
       ∧ _validate_artman_config doc = Some msg
       ∧ load_artifact_config merge_other w path name log = (Raise (ValueError msg), log))
  ∨ (∃ doc, path_exists w path = true ∧ read_config w path = Return doc
       ∧ _validate_artman_config doc = None
       ∧ (name ∉ (Artifact.name <$> Config.artifacts doc))
       ∧ load_artifact_config merge_other w path name log =
           (Raise (NOT_FOUND_ERROR name (Artifact.name <$> Config.artifacts doc)), log))
  ∨ (∃ doc a, path_exists w path = true ∧ read_config w path = Return doc
       ∧ _validate_artman_config doc = None
       ∧ a ∈ Config.artifacts doc ∧ Artifact.name a = name
       ∧ load_artifact_config merge_other w path name log =
           (_ ← _validate_artifact_config (MergeFrom merge_other (Config.common doc) a);
            _normalize_artifact_config (MergeFrom merge_other (Config.common doc) a) path,
            log)).
Proof.
  destruct (path_exists w path) eqn:He.
  2: { left. split; [done|]. unfold load_artifact_config, _read_artman_config, _parse.
       by rewrite He. }
  right. destruct (read_config w path) as [e|doc] eqn:Hr.
  { destruct (is_parse_failure e) eqn:Hp; [left | right; left]; exists e;
      (split_and!; [done..|]);
      unfold load_artifact_config, _read_artman_config, _parse; by rewrite He, Hr, Hp. }
  do 2 right. destruct (_validate_artman_config doc) as [msg|] eqn:Hv.
  { left. exists doc, msg. split_and!; [done..|].
    unfold load_artifact_config. by rewrite (read_artman_config_invalid w path doc log msg). }
  right. rewrite (load_artifact_config_ok merge_other w path name doc log) by done.
  destruct (find_artifact_cases merge_other (Config.common doc) (Config.artifacts doc)
              path name) as [[Hn ->]|(a & Ha & Hname & ->)].
  - left. by exists doc.
  - right. by exists doc, a.
Qed.

End Stages.

(** X5: [load_artifact_config] returns an artifact exactly when the file
    exists and parses to a valid document that has an artifact of the
    requested name whose merge with [common] has a compatible language and
    type and no traversing path. *)
Theorem load_artifact_config_succeeds_iff {R U : Type} (merge_other : R → R → R)
    (w : World R U) (artman_config_path artifact_name : string) (log : list log_record) :
  (∃ effective log',
     load_artifact_config merge_other w artman_config_path artifact_name log =
       (Return effective, log'))
  ↔ (path_exists w artman_config_path = true
     ∧ ∃ doc a merged,
         read_config w artman_config_path = Return doc
         ∧ document_valid (Config.artifacts doc)
         ∧ a ∈ Config.artifacts doc ∧ Artifact.name a = artifact_name
         ∧ merged = MergeFrom merge_other (Config.common doc) a
         ∧ ¬ (Artifact.language merged = NODEJS ∧ Artifact.type merged = GRPC)
         ∧ ¬ traverses (Artifact.service_yaml merged)
         ∧ ¬ traverses (Artifact.gapic_yaml merged)
         ∧ Forall (λ entry, ¬ traverses (entry_path entry))
             (Artifact.src_proto_paths merged)).
Proof.
  split.
  - intros (effective & log' & Hload).
    destruct (load_artifact_config_cases merge_other w artman_config_path artifact_name log)
      as [[_ H]|[(e & _ & _ & _ & H)|[(e & _ & _ & _ & H)|[(doc & msg & _ & _ & _ & H)
          |[(doc & _ & _ & _ & _ & H)|(doc & a & He & Hr & Hv & Ha & Hname & H)]]]]];
      rewrite H in Hload; try discriminate Hload.
    injection Hload as Hload _.
    apply bind_Return in Hload as (u & Hc%validate_artifact_config_Return
                                   & (? & ? & ?)%normalize_artifact_config_Return_clean).
    split; [done|]. eexists doc, a, _. split_and!; try done.
    by apply validate_artman_config_valid.
  - intros (He & doc & a & merged & Hr & Hv%validate_artman_config_valid & Ha & Hname
            & -> & Hc & Hsy & Hgy & Hps).
    rewrite (load_artifact_config_found _ _ _ _ _ doc a) by done.
    rewrite (validate_artifact_config_compatible _ Hc). simpl.
    destruct (normalize_artifact_config_returns _ artman_config_path Hsy Hgy Hps)
      as [effective ->]. by eexists _, _.
Qed.

(** X6: the order of the checks on the selected artifact.  An incompatible
    language and type are reported whatever the paths are; then a
    traversing [service_yaml]; then a traversing [gapic_yaml]; then a
    traversing entry of [src_proto_paths]. *)
Theorem load_artifact_config_error_order {R U : Type} (merge_other : R → R → R)
    (w : World R U) (artman_config_path artifact_name : string) (log : list log_record)
    (doc : Config.t R) (a merged : Artifact.t R) :
  path_exists w artman_config_path = true →
  read_config w artman_config_path = Return doc →
  document_valid (Config.artifacts doc) →
  a ∈ Config.artifacts doc → Artifact.name a = artifact_name →
  merged = MergeFrom merge_other (Config.common doc) a →
  (Artifact.language merged = NODEJS ∧ Artifact.type merged = GRPC →
     load_artifact_config merge_other w artman_config_path artifact_name log =
       (Raise INCOMPATIBLE_ERROR, log))
  ∧ (¬ (Artifact.language merged = NODEJS ∧ Artifact.type merged = GRPC) →
     traverses (Artifact.service_yaml merged) →
     load_artifact_config merge_other w artman_config_path artifact_name log =
       (Raise (traversal_error "service_yaml" artman_config_path), log))
  ∧ (¬ (Artifact.language merged = NODEJS ∧ Artifact.type merged = GRPC) →
     ¬ traverses (Artifact.service_yaml merged) →
     traverses (Artifact.gapic_yaml merged) →
     load_artifact_config merge_other w artman_config_path artifact_name log =
       (Raise (traversal_error "gapic_yaml" artman_config_path), log))
  ∧ (¬ (Artifact.language merged = NODEJS ∧ Artifact.type merged = GRPC) →
     ¬ traverses (Artifact.service_yaml merged) →
     ¬ traverses (Artifact.gapic_yaml merged) →
     Exists (λ entry, traverses (entry_path entry)) (Artifact.src_proto_paths merged) →
     load_artifact_config merge_other w artman_config_path artifact_name log =
       (Raise (traversal_error "src_proto_paths" artman_config_path), log)).
Proof.
  intros He Hr Hv%validate_artman_config_valid Ha Hname ->.
  rewrite (load_artifact_config_found _ _ _ _ _ doc a) by done.
  set (merged := MergeFrom merge_other (Config.common doc) a).
  split_and!.
  - intros [Hl Ht]. by rewrite validate_artifact_config_incompatible.
  - intros Hc Hsy. rewrite (validate_artifact_config_compatible _ Hc). simpl.
    unfold _normalize_artifact_config.
    by rewrite (normalize_if_set_traverses _ artman_config_path "service_yaml" Hsy).
  - intros Hc Hsy Hgy. rewrite (validate_artifact_config_compatible _ Hc). simpl.
    unfold _normalize_artifact_config.
    destruct (normalize_if_set_returns _ artman_config_path "service_yaml" Hsy) as [sy ->].
    rewrite bind_of_Return.
    by rewrite (normalize_if_set_traverses _ artman_config_path "gapic_yaml" Hgy).
  - intros Hc Hsy Hgy Hps. rewrite (validate_artifact_config_compatible _ Hc). simpl.
    unfold _normalize_artifact_config.
    destruct (normalize_if_set_returns _ artman_config_path "service_yaml" Hsy) as [sy ->].
    destruct (normalize_if_set_returns _ artman_config_path "gapic_yaml" Hgy) as [gy ->].
    rewrite !bind_of_Return.
    by rewrite (normalize_src_proto_paths_traverses _ artman_config_path Hps).
Qed.

Lemma document_valid_intro {R : Type} (doc : Config.t R) :
  _validate_artman_config doc = None → document_valid (Config.artifacts doc).
Proof. apply validate_artman_config_valid. Qed.

Lemma load_artifact_config_error_order_witness :
  load_artifact_config merge_unit
    (single_file_world "/conf/artman.yaml" nodejs_common_document)
    "/conf/artman.yaml" "client" [] = (Raise INCOMPATIBLE_ERROR, [])
  ∧ load_artifact_config merge_unit
      (single_file_world "/conf/artman.yaml" traversing_document)
      "/conf/artman.yaml" "docs" [] =
      (Raise (traversal_error "gapic_yaml" "/conf/artman.yaml"), []).
Proof.
  split.
  - apply (proj1 (load_artifact_config_error_order merge_unit
                    (single_file_world "/conf/artman.yaml" nodejs_common_document)
                    "/conf/artman.yaml" "client" [] nodejs_common_document _ _
                    eq_refl eq_refl (document_valid_intro nodejs_common_document eq_refl)
                    (list_elem_of_here _ _) eq_refl eq_refl)).
    split; reflexivity.
  - apply (proj1 (proj2 (proj2 (load_artifact_config_error_order merge_unit
                    (single_file_world "/conf/artman.yaml" traversing_document)
                    "/conf/artman.yaml" "docs" [] traversing_document _ _
                    eq_refl eq_refl (document_valid_intro traversing_document eq_refl)
                    (list_elem_of_here _ _) eq_refl eq_refl)))).
    + intros [H _]. discriminate H.
    + apply not_traverses_empty.
    + right. by exists "a", "/gapic.yaml".
Defined.

(** X7: [load_artifact_config] writes to the log in one case only: the file
    exists and reading it raises one of the two parse errors, which is
    re-raised after one error record that names the path.  A call that
    returns an artifact, and a call that raises a [ValueError], log
    nothing. *)
Theorem load_artifact_config_log {R U : Type} (merge_other : R → R → R) (w : World R U)
    (artman_config_path artifact_name : string) (log log' : list log_record)
    (outcome : result (Artifact.t R)) :
  load_artifact_config merge_other w artman_config_path artifact_name log =
    (outcome, log') →
  (log' = log
   ∨ (∃ e, outcome = Raise e ∧ is_parse_failure e = true
        ∧ path_exists w artman_config_path = true
        ∧ read_config w artman_config_path = Raise e
        ∧ log' = log ++ [(ERROR, Format INVALID_CONFIG_ERROR_MESSAGE_FORMAT
                                   [ArgStr artman_config_path])]))
  ∧ (∀ effective, outcome = Return effective → log' = log)
  ∧ (∀ msg, outcome = Raise (ValueError msg) → log' = log).
Proof.
  intros Hload.
  destruct (load_artifact_config_cases merge_other w artman_config_path artifact_name log)
    as [[_ H]|[(e & Hex & Hr & Hp & H)|[(e & _ & _ & _ & H)|[(doc & msg & _ & _ & _ & H)
        |[(doc & _ & _ & _ & _ & H)|(doc & a & _ & _ & _ & _ & _ & H)]]]]];
    rewrite H in Hload; injection Hload as <- <-;
    try (split_and!; [by left | done | done]).
  split_and!.
  - right. by exists e.
  - done.
  - intros msg [= ->]. done.
Qed.

Lemma load_artifact_config_log_witness :
  ([(ERROR, Format INVALID_CONFIG_ERROR_MESSAGE_FORMAT [ArgStr "artman.yaml"])] = []
   ∨ (∃ e, Raise (A := Artifact.t unit) (json_format_ParseError "no field") = Raise e
        ∧ is_parse_failure e = true
        ∧ path_exists (unreadable_world "artman.yaml" (json_format_ParseError "no field"))
            "artman.yaml" = true
        ∧ read_config (unreadable_world "artman.yaml" (json_format_ParseError "no field"))
            "artman.yaml" = Raise e
        ∧ [(ERROR, Format INVALID_CONFIG_ERROR_MESSAGE_FORMAT [ArgStr "artman.yaml"])] =
            [] ++ [(ERROR, Format INVALID_CONFIG_ERROR_MESSAGE_FORMAT
                             [ArgStr "artman.yaml"])]))
  ∧ (∀ effective : Artifact.t unit,
       Raise (json_format_ParseError "no field") = Return effective →
       [(ERROR, Format INVALID_CONFIG_ERROR_MESSAGE_FORMAT [ArgStr "artman.yaml"])] = [])
  ∧ (∀ msg,
       Raise (A := Artifact.t unit) (json_format_ParseError "no field") =
         Raise (ValueError msg) →
       [(ERROR, Format INVALID_CONFIG_ERROR_MESSAGE_FORMAT [ArgStr "artman.yaml"])] = []).
Proof.
  apply (load_artifact_config_log merge_unit
           (unreadable_world "artman.yaml" (json_format_ParseError "no field"))
           "artman.yaml" "a" []).
  reflexivity.
Defined.

(** X8: a configuration path that does not exist is reported with a
    [ValueError] that names it, and nothing is logged; when the file exists
    and reading it raises, that exception is what [load_artifact_config]
    raises, whatever the artifact name, and it is logged only if it is one
    of the two parse errors. *)
Theorem load_artifact_config_unreadable {R U : Type} (merge_other : R → R → R)
    (w : World R U) (artman_config_path artifact_name : string) (log : list log_record) :
  (path_exists w artman_config_path = false →
     load_artifact_config merge_other w artman_config_path artifact_name log =
       (Raise (ValueError (Format CONFIG_NOT_FOUND_ERROR_MESSAGE_FORMAT
                 [ArgStr artman_config_path])), log))
  ∧ (∀ e, path_exists w artman_config_path = true →
       read_config w artman_config_path = Raise e →
       load_artifact_config merge_other w artman_config_path artifact_name log =
         (Raise e,
          if is_parse_failure e
          then log ++ [(ERROR, Format INVALID_CONFIG_ERROR_MESSAGE_FORMAT
                                 [ArgStr artman_config_path])]
          else log)).
Proof.
  split.
  - intros He. unfold load_artifact_config, _read_artman_config, _parse. by rewrite He.
  - intros e He Hr. unfold load_artifact_config, _read_artman_config, _parse.
    rewrite He, Hr. by destruct (is_parse_failure e).
Qed.

Lemma load_artifact_config_unreadable_witness :
  load_artifact_config merge_unit (single_file_world "artman.yaml" abc_document)
    "artman.yml" "a" [] =
    (Raise (ValueError (Format CONFIG_NOT_FOUND_ERROR_MESSAGE_FORMAT [ArgStr "artman.yml"])),
     [])
  ∧ load_artifact_config merge_unit
      (unreadable_world "artman.yaml" (OtherException "ScannerError" "line 1"))
      "artman.yaml" "a" [] = (Raise (OtherException "ScannerError" "line 1"), []).
Proof.
  split.
  - apply (proj1 (load_artifact_config_unreadable merge_unit
                    (single_file_world "artman.yaml" abc_document) "artman.yml" "a" [])).
    reflexivity.
  - apply (proj2 (load_artifact_config_unreadable merge_unit
                    (unreadable_world "artman.yaml" (OtherException "ScannerError" "line 1"))
                    "artman.yaml" "a" [])
             (OtherException "ScannerError" "line 1")); reflexivity.
Defined.

Lemma load_artifact_config_Return {R U : Type} (merge_other : R → R → R) (w : World R U)
    path name log effective log' :
  load_artifact_config merge_other w path name log = (Return effective, log') →
  ∃ doc a, read_config w path = Return doc ∧ a ∈ Config.artifacts doc
    ∧ Artifact.name a = name
    ∧ _validate_artifact_config (MergeFrom merge_other (Config.common doc) a) = Return tt
    ∧ _normalize_artifact_config (MergeFrom merge_other (Config.common doc) a) path =
        Return effective.
Proof.
  intros Hload.
  destruct (load_artifact_config_cases merge_other w path name log)
    as [[_ H]|[(e & _ & _ & _ & H)|[(e & _ & _ & _ & H)|[(doc & msg & _ & _ & _ & H)
        |[(doc & _ & _ & _ & _ & H)|(doc & a & He & Hr & Hv & Ha & Hname & H)]]]]];
    rewrite H in Hload; try discriminate Hload.
  injection Hload as Hload _. apply bind_Return in Hload as ([] & Hc & Hn).
  by exists doc, a.
Qed.

(** X9: [load_artifact_config] never returns an artifact whose language is
    NODEJS and whose type is GRPC. *)
Theorem load_artifact_config_compatible {R U : Type} (merge_other : R → R → R)
    (w : World R U) (artman_config_path artifact_name : string)
    (log log' : list log_record) (effective : Artifact.t R) :
  load_artifact_config merge_other w artman_config_path artifact_name log =
    (Return effective, log') →
  Artifact.language effective ≠ NODEJS ∨ Artifact.type effective ≠ GRPC.
Proof.
  intros (doc & a & _ & _ & _ & Hc%validate_artifact_config_Return
          & (sy & gy & ps & _ & _ & _ & ->)%normalize_artifact_config_Return)
         %load_artifact_config_Return.
  simpl in *. set (merged := MergeFrom merge_other (Config.common doc) a) in *.
  destruct (decide (Artifact.language merged = NODEJS)); [|by left].
  destruct (decide (Artifact.type merged = GRPC)); [|by right].
  by destruct Hc.
Qed.

Lemma load_artifact_config_compatible_witness :
  Artifact.language shared_protos_effective ≠ NODEJS
  ∨ Artifact.type shared_protos_effective ≠ GRPC.
Proof.
  apply (load_artifact_config_compatible merge_unit
           (single_file_world "/conf/artman.yaml" shared_protos_document)
           "/conf/artman.yaml" "foo" [] [] shared_protos_effective).
  vm_compute. reflexivity.
Defined.

(** X10: the artifact that [load_artifact_config] returns for a name that is
    not empty carries that name. *)
Theorem load_artifact_config_name {R U : Type} (merge_other : R → R → R)
    (w : World R U) (artman_config_path artifact_name : string)
    (log log' : list log_record) (effective : Artifact.t R) :
  artifact_name ≠ "" →
  load_artifact_config merge_other w artman_config_path artifact_name log =
    (Return effective, log') →
  Artifact.name effective = artifact_name.
Proof.
  intros Hne (doc & a & _ & _ & Hname & _
              & (sy & gy & ps & _ & _ & _ & ->)%normalize_artifact_config_Return)
             %load_artifact_config_Return.
  simpl. rewrite Hname. unfold merge_string. by destruct artifact_name.
Qed.

Lemma load_artifact_config_name_witness :
  Artifact.name shared_protos_effective = "foo".
Proof.
  apply (load_artifact_config_name merge_unit
           (single_file_world "/conf/artman.yaml" shared_protos_document)
           "/conf/artman.yaml" "foo" [] [] shared_protos_effective).
  - discriminate.
  - vm_compute. reflexivity.
Defined.

(** An artifact without a name is found under the empty name, and what is
    returned then carries the name that [common] sets. *)
Example load_artifact_config_empty_name :
  ∃ effective,
    load_artifact_config merge_unit
      (single_file_world "artman.yaml"
         (Config.Build (artifact_named "shared") [artifact_named ""]))
      "artman.yaml" "" [] = (Return effective, [])
    ∧ Artifact.name effective = "shared".
Proof. by eexists. Qed.

(** X11: a document that [_read_artman_config] returns comes from an
    existing file, is what reading that file gives, has pairwise distinct
    artifact names and, within each artifact, pairwise distinct publish
    target names; and nothing was logged. *)
Theorem read_artman_config_valid {R U : Type} (w : World R U)
    (artman_yaml_path : string) (log log' : list log_record) (doc : Config.t R) :
  _read_artman_config w artman_yaml_path log = (Return doc, log') →
  path_exists w artman_yaml_path = true
  ∧ read_config w artman_yaml_path = Return doc
  ∧ document_valid (Config.artifacts doc)
  ∧ log' = log.
Proof.
  unfold _read_artman_config, _parse.
  destruct (path_exists w artman_yaml_path); simpl; [|done].
  destruct (read_config w artman_yaml_path) as [e|d].
  - by destruct (is_parse_failure e).
  - destruct (_validate_artman_config d) eqn:Hv; [done|].
    intros [= <- <-]. split_and!; try done. by apply validate_artman_config_valid.
Qed.

Lemma read_artman_config_valid_witness :
  path_exists (single_file_world "artman.yaml" abc_document) "artman.yaml" = true
  ∧ read_config (single_file_world "artman.yaml" abc_document) "artman.yaml" =
      Return abc_document
  ∧ document_valid (Config.artifacts abc_document)
  ∧ [] = ([] : list log_record).
Proof.
  apply (read_artman_config_valid (single_file_world "artman.yaml" abc_document)
           "artman.yaml" [] [] abc_document).
  vm_compute. reflexivity.
Defined.

(** X12: once the file has been parsed, every failure of
    [load_artifact_config] is a [ValueError] and leaves the log as it was:
    the message of the first violation of the document; or, the document
    being valid, the not-found error with all its artifact names when none
    has the requested name; or, when one has, the incompatibility error or
    the traversal error of one of the three path fields. *)
Theorem load_artifact_config_errors {R U : Type} (merge_other : R → R → R)
    (w : World R U) (artman_config_path artifact_name : string)
    (log log' : list log_record) (doc : Config.t R) (e : exn) :
  path_exists w artman_config_path = true →
  read_config w artman_config_path = Return doc →
  load_artifact_config merge_other w artman_config_path artifact_name log =
    (Raise e, log') →
  log' = log
  ∧ ((∃ msg, first_violation (Config.artifacts doc) msg ∧ e = ValueError msg)
     ∨ (document_valid (Config.artifacts doc)
        ∧ (artifact_name ∉ (Artifact.name <$> Config.artifacts doc))
        ∧ e = NOT_FOUND_ERROR artifact_name (Artifact.name <$> Config.artifacts doc))
     ∨ (document_valid (Config.artifacts doc)
        ∧ artifact_name ∈ (Artifact.name <$> Config.artifacts doc)
        ∧ (e = INCOMPATIBLE_ERROR
           ∨ e = traversal_error "service_yaml" artman_config_path
           ∨ e = traversal_error "gapic_yaml" artman_config_path
           ∨ e = traversal_error "src_proto_paths" artman_config_path))).
Proof.
  intros He Hr Hload.
  destruct (load_artifact_config_cases merge_other w artman_config_path artifact_name log)
    as [[He' _]|[(e' & _ & Hr' & _)|[(e' & _ & Hr' & _)|[(d & msg & _ & Hr' & Hv & H)
        |[(d & _ & Hr' & Hv & Hn & H)|(d & a & _ & Hr' & Hv & Ha & Hname & H)]]]]];
    try congruence;
    assert (d = doc) as -> by congruence; rewrite H in Hload.
  - injection Hload as <- <-. split; [done|]. left. exists msg. split; [|done].
    by apply validate_artman_config_violation.
  - injection Hload as <- <-. split; [done|]. right; left. split_and!; [|done..].
    by apply validate_artman_config_valid.
  - injection Hload as Hload <-. split; [done|]. right; right. split_and!.
    + by apply validate_artman_config_valid.
    + rewrite <- Hname. by apply list_elem_of_fmap_2.
    + apply bind_Raise in Hload as [Hc|(u & _ & Hn)].
      * apply validate_artifact_config_Raise in Hc as [_ ->]. by left.
      * apply normalize_artifact_config_Raise in Hn as [[_ ->]|[[_ ->]| ->]]; auto.
Qed.

Lemma load_artifact_config_errors_witness :
  [] = ([] : list log_record)
  ∧ ((∃ msg, first_violation (Config.artifacts abc_document) msg
        ∧ NOT_FOUND_ERROR "x" ["a"; "b"; "c"] = ValueError msg)
     ∨ (document_valid (Config.artifacts abc_document)
        ∧ ("x" ∉ (Artifact.name <$> Config.artifacts abc_document))
        ∧ NOT_FOUND_ERROR "x" ["a"; "b"; "c"] =
            NOT_FOUND_ERROR "x" (Artifact.name <$> Config.artifacts abc_document))
     ∨ (document_valid (Config.artifacts abc_document)
        ∧ "x" ∈ (Artifact.name <$> Config.artifacts abc_document)
        ∧ (NOT_FOUND_ERROR "x" ["a"; "b"; "c"] = INCOMPATIBLE_ERROR
           ∨ NOT_FOUND_ERROR "x" ["a"; "b"; "c"] =
               traversal_error "service_yaml" "artman.yaml"
           ∨ NOT_FOUND_ERROR "x" ["a"; "b"; "c"] =
               traversal_error "gapic_yaml" "artman.yaml"
           ∨ NOT_FOUND_ERROR "x" ["a"; "b"; "c"] =
               traversal_error "src_proto_paths" "artman.yaml"))).
Proof.
  apply (load_artifact_config_errors merge_unit
           (single_file_world "artman.yaml" abc_document) "artman.yaml" "x" [] []
           abc_document (NOT_FOUND_ERROR "x" ["a"; "b"; "c"]));
    reflexivity.
Defined.

(** ** Stability of the document-level validation *)

Lemma first_violation_app {R : Type} (l l' : list (Artifact.t R)) msg :
  first_violation l msg → first_violation (l ++ l') msg.
Proof.
  intros [pre a post -> Hpre Ha ->|pre a post tpre t tpost -> Hpre Ha Et Htpre Ht ->].
  - eapply (duplicate_artifact _ _ pre a (post ++ l')); [|done..].
    by rewrite <- app_assoc.
  - eapply (duplicate_target _ _ pre a (post ++ l')); [|done..].
    by rewrite <- app_assoc.
Qed.

(** X13: the first violation wins for good: a message that
    [_validate_artman_config] returns for a document is the message it
    returns for every document that continues it with more artifacts,
    whatever the [common] section. *)
Theorem validate_artman_config_append {R : Type} (common common' : Artifact.t R)
    (artifacts more : list (Artifact.t R)) (msg : message) :
  _validate_artman_config (Config.Build common artifacts) = Some msg →
  _validate_artman_config (Config.Build common' (artifacts ++ more)) = Some msg.
Proof.
  intros H%validate_artman_config_violation. apply validate_artman_config_violation.
  by apply first_violation_app.
Qed.

Lemma validate_artman_config_append_witness :
  _validate_artman_config
    (Config.Build (artifact_named "")
       (Config.artifacts twice_document
          ++ [artifact_named "b";
              Artifact.Build "d" JAVA GAPIC "" "" [] [staging_target; staging_target] tt]))
  = Some (Format DUPLICATE_ARTIFACT_FORMAT [ArgStr "a"]).
Proof.
  apply (validate_artman_config_append (artifact_named "") (artifact_named "")
           (Config.artifacts twice_document)).
  vm_compute. reflexivity.
Defined.

Lemma submseteq_NoDup {A : Type} (l1 l2 : list A) : l1 ⊆+ l2 → NoDup l2 → NoDup l1.
Proof.
  induction 1 as [|x l1 l2 Hsub IH|x y l|x l1 l2 Hsub IH|l1 l2 l3 _ IH1 _ IH2].
  - done.
  - rewrite !NoDup_cons. intros [Hx Hnd]. split; [|auto].
    intros Hin. apply Hx. by eapply elem_of_submseteq.
  - rewrite !NoDup_cons, !not_elem_of_cons. naive_solver.
  - rewrite NoDup_cons. intros [_ Hnd]. auto.
  - auto.
Qed.

Lemma document_valid_submseteq {R : Type} (l1 l2 : list (Artifact.t R)) :
  l1 ⊆+ l2 → document_valid l2 → document_valid l1.
Proof.
  intros Hsub [Hnd Hf]. split.
  - eapply submseteq_NoDup; [|done]. by apply fmap_submseteq.
  - rewrite Forall_forall in Hf |- *. intros a Ha. apply Hf.
    by eapply elem_of_submseteq.
Qed.

(** X14: a document that passes [_validate_artman_config] still passes
    after artifacts are removed from it or put in another order, whatever
    the [common] section. *)
Theorem validate_artman_config_submseteq {R : Type} (common common' : Artifact.t R)
    (artifacts kept : list (Artifact.t R)) :
  kept ⊆+ artifacts →
  _validate_artman_config (Config.Build common artifacts) = None →
  _validate_artman_config (Config.Build common' kept) = None.
Proof.
  intros Hsub H%validate_artman_config_valid. apply validate_artman_config_valid.
  by eapply document_valid_submseteq.
Qed.

Lemma validate_artman_config_submseteq_witness :
  _validate_artman_config ca_document = None.
Proof.
  apply (validate_artman_config_submseteq (Config.common abc_document)
           (artifact_named "other") (Config.artifacts abc_document)
           (Config.artifacts ca_document)).
  - apply (submseteq_trans _ [artifact_named "a"; artifact_named "c"]).
    + apply submseteq_swap.
    + apply submseteq_skip, submseteq_cons. reflexivity.
  - vm_compute. reflexivity.
Defined.

(** ** The user configuration under an expanded path *)

Lemma split_at_rest s c :
  (Py.split_at s c).2 = "" ∨ has_prefix (String c "") (Py.split_at s c).2.
Proof.
  induction s as [|a s IH]; simpl; [by left|].
  destruct (Ascii.eqb_spec a c) as [->|_]; simpl.
  - right. by exists s.
  - by destruct (Py.split_at s c).
Qed.

Lemma expanduser_same_or_abs {R U : Type} (w : World R U) path :
  (∀ user home, userhome w user = Some home → has_prefix "/" home) →
  expanduser w path = path ∨ has_prefix "/" (expanduser w path).
Proof.
  intros Hhome. unfold expanduser.
  destruct (Py.startswith path "~"); simpl; [|by left].
  pose proof (split_at_rest (Py.tail path) posixpath.sep) as Hrest.
  destruct (Py.split_at (Py.tail path) posixpath.sep) as [user rest]. simpl in Hrest.
  destruct (userhome w user) as [home|] eqn:Eh; [|by left]. right.
  apply Hhome in Eh as [h ->].
  destruct (rstrip_prefix (String "/" h) posixpath.sep) as [r Hr].
  rewrite append_cons, append_nil in *.
  destruct (Py.rstrip (String "/" h) posixpath.sep) as [|x t].
  - rewrite append_nil. destruct Hrest as [->|[q ->]]; [by exists ""|].
    by exists q.
  - rewrite append_cons in Hr. injection Hr as <- _.
    rewrite append_cons. by eexists.
Qed.

Lemma expanduser_idempotent {R U : Type} (w : World R U) path :
  (∀ user home, userhome w user = Some home → has_prefix "/" home) →
  expanduser w (expanduser w path) = expanduser w path.
Proof.
  intros Hhome. destruct (expanduser_same_or_abs w path Hhome) as [E|[r Hr]];
    [by rewrite !E|].
  apply expanduser_no_tilde. rewrite Hr. by intros H%startswith_spec.
Qed.

(** X15: on a machine whose home directories are absolute paths,
    [read_user_config] may be given a path that has been expanded already:
    the outcome and the log are those of the path as written. *)
Theorem read_user_config_expanded {R U : Type} (UserConfig_default : U) (w : World R U)
    (artman_user_config_path : string) (log : list log_record) :
  (∀ user home, userhome w user = Some home → has_prefix "/" home) →
  read_user_config UserConfig_default w (expanduser w artman_user_config_path) log =
    read_user_config UserConfig_default w artman_user_config_path log.
Proof.
  intros Hhome. unfold read_user_config. by rewrite expanduser_idempotent.
Qed.

Lemma home_world_absolute user home :
  userhome home_world user = Some home → has_prefix "/" home.
Proof.
  simpl. destruct (String.eqb user ""); [|done]. intros [= <-]. by exists "home/u/".
Qed.

Lemma read_user_config_expanded_witness :
  read_user_config tt home_world (expanduser home_world "~/.artman/broken.yaml") [] =
    read_user_config tt home_world "~/.artman/broken.yaml" [].
Proof.
  apply (read_user_config_expanded tt home_world "~/.artman/broken.yaml" []
           home_world_absolute).
Defined.

Lemma load_artifact_config_succeeds_iff_witness :
  ∃ effective log',
    load_artifact_config merge_unit
      (single_file_world "/conf/artman.yaml" shared_protos_document)
      "/conf/artman.yaml" "foo" [] = (Return effective, log').
Proof.
  apply (proj2 (load_artifact_config_succeeds_iff merge_unit
                  (single_file_world "/conf/artman.yaml" shared_protos_document)
                  "/conf/artman.yaml" "foo" [])).
  split; [reflexivity|].
  exists shared_protos_document, shared_protos_override, shared_protos_effective.
  split_and!; try reflexivity.
  - by apply document_valid_intro.
  - by left.
  - intros [H _]. discriminate H.
  - apply not_traverses_empty.
  - apply not_traverses_empty.
  - repeat constructor; by apply not_traverses_intro.
Defined.

(** * The directory of the configuration document, and the home directory *)

(** ** [os.path.dirname] and [os.path.join] against their description *)

Lemma separators_all_char s : separators s → Py.all_char s posixpath.sep = true.
Proof. induction 1 as [|s _ IH]; [done|]. simpl. by rewrite IH. Qed.

Lemma separators_nonempty s : separators s → s ≠ "".
Proof. by destruct 1. Qed.

Lemma separators_suffix s : separators s → has_suffix "/" s.
Proof.
  induction 1 as [|s _ [r ->]]; [by exists ""|]. by exists (String "/" r).
Qed.

Lemma all_char_separators s : Py.all_char s posixpath.sep = true → s ≠ "" → separators s.
Proof.
  induction s as [|a s IH]; [done|]. simpl.
  intros [Ha Hs]%andb_true_iff _. apply Ascii.eqb_eq in Ha as ->.
  destruct s as [|b s]; [constructor|]. constructor. by apply IH.
Qed.

Lemma has_suffix_cons a s suf : has_suffix suf s → has_suffix suf (String a s).
Proof. intros [r ->]. by exists (String a r). Qed.

Lemma has_suffix_tail a s c :
  s ≠ "" → has_suffix (String c "") (String a s) → has_suffix (String c "") s.
Proof.
  intros Hs [r Hr]. destruct r as [|b r].
  - rewrite append_nil in Hr. injection Hr as _ E. by destruct Hs.
  - rewrite append_cons in Hr. injection Hr as _ ->. by exists r.
Qed.

Lemma has_suffix_single a c : has_suffix (String c "") (String a "") → a = c.
Proof.
  intros [r Hr]. destruct r as [|b r].
  - rewrite append_nil in Hr. by injection Hr.
  - rewrite append_cons in Hr. injection Hr as _ Hr. by destruct r.
Qed.

Lemma not_has_suffix_empty suf : suf ≠ "" → ¬ has_suffix suf "".
Proof. intros Hs [r Hr]. destruct r; [by rewrite append_nil in Hr | done]. Qed.

Lemma endswith_char_spec s c :
  Py.endswith_char s c = true ↔ has_suffix (String c "") s.
Proof.
  split.
  - induction s as [|a s IH]; [done|]. cbn [Py.endswith_char].
    destruct s as [|b s].
    + intros ->%Ascii.eqb_eq. by exists "".
    + intros H. by apply has_suffix_cons, IH.
  - intros [r ->]. rewrite endswith_char_app by done. apply Ascii.eqb_refl.
Qed.

Lemma contains_sep_cons a s :
  Py.contains "/" (String a s) = Ascii.eqb "/" a || Py.contains "/" s.
Proof. cbn [Py.contains]. rewrite startswith_cons. by destruct (Ascii.eqb "/" a). Qed.

Lemma upto_last_nosep s : Py.contains "/" s = false → Py.upto_last s posixpath.sep = "".
Proof.
  destruct s as [|a s]; [done|]. cbn [Py.upto_last]. unfold posixpath.sep.
  by intros ->.
Qed.

Lemma upto_last_app head file :
  has_suffix "/" head → Py.contains "/" file = false →
  Py.upto_last (head +:+ file) posixpath.sep = head.
Proof.
  intros Hh Hf. induction head as [|a h IH].
  - by destruct (not_has_suffix_empty "/").
  - rewrite append_cons. cbn [Py.upto_last]. unfold posixpath.sep at 1.
    replace (Py.contains _ (String a (h +:+ file))) with true.
    2: { symmetry. apply contains_spec. destruct Hh as [r Hr].
         exists r, file. by rewrite <- append_cons, Hr, append_assoc. }
    f_equal. destruct h as [|b h].
    + rewrite append_nil. by apply upto_last_nosep.
    + apply IH. by eapply has_suffix_tail.
Qed.

Lemma rstrip_app stripped seps :
  Py.all_char seps posixpath.sep = true → ¬ has_suffix "/" stripped →
  Py.rstrip (stripped +:+ seps) posixpath.sep = stripped.
Proof.
  intros Hseps. induction stripped as [|a h IH]; intros Hh.
  - rewrite append_nil. by apply rstrip_empty.
  - rewrite append_cons. cbn [Py.rstrip]. destruct h as [|b h].
    + rewrite append_nil, (proj2 (rstrip_empty _ _) Hseps).
      destruct (Ascii.eqb_spec a posixpath.sep) as [->|]; [|done].
      destruct Hh. by exists "".
    + rewrite IH; [done|]. intros Hs. apply Hh. by apply has_suffix_cons.
Qed.

Lemma all_char_app_false dir seps :
  Py.all_char seps posixpath.sep = true → dir ≠ "" → ¬ has_suffix "/" dir →
  Py.all_char (dir +:+ seps) posixpath.sep = false.
Proof.
  intros Hseps Hne Hd.
  destruct (Py.all_char (dir +:+ seps) posixpath.sep) eqn:E; [|done].
  apply (proj2 (rstrip_empty _ _)) in E. rewrite rstrip_app in E by done. done.
Qed.

(** [os.path.dirname] returns the containing directory. *)
Lemma dirname_sound cp dir : containing_directory cp dir → posixpath.dirname cp = dir.
Proof.
  unfold posixpath.dirname.
  intros [cp' Hn%contains_false|seps file Hs Hf%contains_false
          |d seps file Hne Hd Hs Hf%contains_false].
  - by rewrite upto_last_nosep.
  - rewrite upto_last_app by auto using separators_suffix.
    by rewrite separators_all_char, andb_false_r.
  - rewrite <- append_assoc, upto_last_app.
    2: { destruct (separators_suffix _ Hs) as [r ->]. exists (d +:+ r).
         by rewrite append_assoc. }
    2: done.
    rewrite all_char_app_false by auto using separators_all_char.
    rewrite rstrip_app by auto using separators_all_char.
    by destruct d.
Qed.

Lemma upto_last_split s :
  ∃ file, s = Py.upto_last s posixpath.sep +:+ file ∧ Py.contains "/" file = false
    ∧ (Py.upto_last s posixpath.sep = "" ∨ has_suffix "/" (Py.upto_last s posixpath.sep)).
Proof.
  induction s as [|a s (file & Hs & Hf & Hu)];
    [exists ""; split_and!; [done | done | by left]|].
  cbn [Py.upto_last]. destruct (Py.contains _ (String a s)) eqn:E.
  - exists file. split_and!; [by rewrite append_cons, <- Hs | done | right].
    destruct Hu as [Hu|Hu]; [|by apply has_suffix_cons].
    rewrite Hu in *. rewrite append_nil in Hs. subst s.
    rewrite contains_sep_cons, Hf, orb_false_r in E.
    apply Ascii.eqb_eq in E as <-. by exists "".
  - exists (String a s). by split_and!; [| |left].
Qed.

Lemma rstrip_split s :
  ∃ seps, s = Py.rstrip s posixpath.sep +:+ seps
    ∧ Py.all_char seps posixpath.sep = true
    ∧ ¬ has_suffix "/" (Py.rstrip s posixpath.sep).
Proof.
  induction s as [|a s (seps & Hs & Hseps & Hr)].
  - exists "". split_and!; [done | done | by apply not_has_suffix_empty].
  - cbn [Py.rstrip]. destruct (Py.rstrip s posixpath.sep) as [|b r] eqn:E.
    + rewrite append_nil in Hs. subst seps.
      destruct (Ascii.eqb_spec a posixpath.sep) as [->|Hne].
      * exists (String posixpath.sep s).
        split_and!; [done | by simpl; rewrite Hseps | by apply not_has_suffix_empty].
      * exists s. split_and!; [done | done |].
        intros H%has_suffix_single. done.
    + exists seps. split_and!; [by rewrite append_cons, <- Hs | done |].
      intros H. apply Hr. by eapply has_suffix_tail.
Qed.

Lemma append_nil_r (s : string) : s +:+ "" = s.
Proof. induction s as [|a s IH]; [done|]. by rewrite append_cons, IH. Qed.

(** Every path has a containing directory. *)
Lemma containing_directory_total cp : ∃ dir, containing_directory cp dir.
Proof.
  destruct (Py.contains "/" cp) eqn:E.
  2: { exists "". constructor. by apply contains_false. }
  destruct (upto_last_split cp) as (file & Hcp & Hf & Hu).
  destruct Hu as [Hu|Hu].
  { rewrite Hu, append_nil in Hcp. congruence. }
  destruct (rstrip_split (Py.upto_last cp posixpath.sep)) as (seps & Hh & Hseps & Hd).
  remember (Py.upto_last cp posixpath.sep) as head eqn:Ehead. clear Ehead.
  remember (Py.rstrip head posixpath.sep) as d eqn:Ed. clear Ed. subst head.
  assert (separators seps) as Hs.
  { apply all_char_separators; [done|]. intros ->. by rewrite append_nil_r in Hu. }
  apply contains_false in Hf. rewrite Hcp. destruct d as [|a d].
  - exists seps. rewrite append_nil. by constructor.
  - exists (String a d). rewrite append_assoc. by constructor.
Qed.

(** [os.path.join] puts a relative path under the directory. *)
Lemma join_sound dir path joined :
  joined_under dir path joined → ¬ has_prefix "/" path → posixpath.join dir path = joined.
Proof.
  intros Hj Hp%startswith_false. unfold posixpath.join, posixpath.sep. rewrite Hp.
  destruct Hj as [->|Hs|Hne Hs].
  - done.
  - apply endswith_char_spec in Hs. by rewrite Hs, orb_true_r.
  - destruct (Py.endswith_char dir "/") eqn:E.
    + by apply endswith_char_spec in E.
    + by destruct dir.
Qed.

Lemma joined_under_total dir path : ∃ joined, joined_under dir path joined.
Proof.
  destruct dir as [|a d]; [eexists; by constructor 1|].
  destruct (Py.endswith_char (String a d) "/") eqn:E.
  - eexists. constructor 2. by apply endswith_char_spec.
  - eexists. constructor 3; [done|]. intros H%endswith_char_spec. congruence.
Qed.

(** C2: [_normalize_path] raises the traversal error, whose message is
    formatted with the field name, the path of the configuration document
    and the directory that contains that document, exactly when the path
    starts with two dots or a separator followed by two dots occurs in it;
    otherwise it returns an absolute path as it is and returns a relative
    path put under the directory that contains the configuration document.
    The path [a..b] is accepted. *)
Theorem normalize_path_spec (path artman_config_path field : string) :
  (traverses path ↔
     _normalize_path path artman_config_path field =
       Raise (ValueError (Format PATH_TRAVERSAL_FORMAT
                [ArgStr field; ArgStr artman_config_path;
                 ArgStr (posixpath.dirname artman_config_path)])))
  ∧ (traverses path ↔ ∃ e, _normalize_path path artman_config_path field = Raise e)
  ∧ (¬ traverses path → has_prefix "/" path →
       _normalize_path path artman_config_path field = Return path)
  ∧ (¬ traverses path → ¬ has_prefix "/" path →
       _normalize_path path artman_config_path field =
         Return (posixpath.join (posixpath.dirname artman_config_path) path))
  ∧ _normalize_path "a..b" artman_config_path field =
      Return (posixpath.join (posixpath.dirname artman_config_path) "a..b")
  ∧ (∃ dir, containing_directory artman_config_path dir)
  ∧ (∀ dir, ∃ joined, joined_under dir path joined)
  ∧ (∀ dir, containing_directory artman_config_path dir → traverses path →
       _normalize_path path artman_config_path field =
         Raise (ValueError (Format PATH_TRAVERSAL_FORMAT
                  [ArgStr field; ArgStr artman_config_path; ArgStr dir])))
  ∧ (∀ dir joined,
       containing_directory artman_config_path dir → joined_under dir path joined →
       ¬ traverses path → ¬ has_prefix "/" path →
       _normalize_path path artman_config_path field = Return joined)
  ∧ (∀ dir joined,
       containing_directory artman_config_path dir → joined_under dir "a..b" joined →
       _normalize_path "a..b" artman_config_path field = Return joined).
Proof.
  assert (∀ p dir joined,
            containing_directory artman_config_path dir → joined_under dir p joined →
            ¬ traverses p → ¬ has_prefix "/" p →
            _normalize_path p artman_config_path field = Return joined) as Hrel.
  { intros p dir joined Hdir Hj Ht Ha. rewrite normalize_path_ok by done.
    destruct (posixpath.isabs p) eqn:E; [by apply isabs_spec in E|].
    by rewrite (dirname_sound _ _ Hdir), (join_sound _ _ _ Hj Ha). }
  split_and!.
  - split; [apply normalize_path_traverses|].
    intros H. by apply normalize_path_raises in H as [H _].
  - split; [intros H; eexists; by apply normalize_path_traverses|].
    intros [e H]. by apply normalize_path_raises in H as [H _].
  - intros Ht Ha%isabs_spec. rewrite normalize_path_ok by done. by rewrite Ha.
  - intros Ht Ha. rewrite normalize_path_ok by done.
    destruct (posixpath.isabs path) eqn:E; [|done].
    by apply isabs_spec in E.
  - done.
  - apply containing_directory_total.
  - intros dir. apply joined_under_total.
  - intros dir Hdir Ht. rewrite normalize_path_traverses by done.
    unfold traversal_error. by rewrite (dirname_sound _ _ Hdir).
  - apply Hrel.
  - intros dir joined Hdir Hj. apply (Hrel _ dir); [done | done | |].
    + by apply traverses_false.
    + by apply startswith_false.
Qed.

Lemma conf_directory : containing_directory "/conf/artman.yaml" "/conf".
Proof.
  apply (directory_of "/conf" "/" "artman.yaml").
  - done.
  - by intros H%endswith_char_spec.
  - constructor.
  - by apply contains_false.
Qed.

Lemma normalize_path_spec_witness :
  _normalize_path "a/../b" "/conf/artman.yaml" "gapic_yaml" =
    Raise (ValueError (Format PATH_TRAVERSAL_FORMAT
             [ArgStr "gapic_yaml"; ArgStr "/conf/artman.yaml"; ArgStr "/conf"]))
  ∧ _normalize_path "protos/x.proto" "/conf/artman.yaml" "src_proto_paths" =
      Return "/conf/protos/x.proto".
Proof.
  split.
  - apply (proj1 (proj2 (proj2 (proj2 (proj2 (proj2 (proj2 (proj2
             (normalize_path_spec "a/../b" "/conf/artman.yaml" "gapic_yaml"))))))))
             "/conf" conf_directory).
    right. by exists "a", "/b".
  - apply (proj1 (proj2 (proj2 (proj2 (proj2 (proj2 (proj2 (proj2 (proj2
             (normalize_path_spec "protos/x.proto" "/conf/artman.yaml"
                "src_proto_paths")))))))))
             "/conf" "/conf/protos/x.proto" conf_directory).
    + apply (joined_plain "/conf" "protos/x.proto"); [done|].
      by intros H%endswith_char_spec.
    + by apply traverses_false.
    + by apply startswith_false.
Defined.

(** The three shapes of a configuration path, on one relative path. *)
Example normalize_path_directories :
  _normalize_path "x.proto" "artman.yaml" "src_proto_paths" = Return "x.proto"
  ∧ _normalize_path "x.proto" "/artman.yaml" "src_proto_paths" = Return "/x.proto"
  ∧ _normalize_path "x.proto" "conf//sub/artman.yaml" "src_proto_paths" =
      Return "conf//sub/x.proto"
  ∧ _normalize_path "x.proto" "conf/" "src_proto_paths" = Return "conf/x.proto".
Proof. done. Qed.

(** ** [os.path.expanduser] against its description *)

Lemma split_at_sound user rest :
  ¬ has_substring "/" user → rest = "" ∨ has_prefix "/" rest →
  Py.split_at (user +:+ rest) posixpath.sep = (user, rest).
Proof.
  intros Hu%contains_false Hrest. induction user as [|a u IH].
  - rewrite append_nil. destruct Hrest as [->|[q ->]]; done.
  - rewrite contains_sep_cons in Hu. apply orb_false_iff in Hu as [Ha Hu].
    rewrite append_cons. cbn [Py.split_at].
    destruct (Ascii.eqb_spec a posixpath.sep) as [->|_]; [done|].
    by rewrite IH.
Qed.

Lemma split_at_decompose s :
  ∃ user rest, s = user +:+ rest ∧ ¬ has_substring "/" user
    ∧ (rest = "" ∨ has_prefix "/" rest).
Proof.
  induction s as [|a s (user & rest & -> & Hu & Hrest)].
  - exists "", "". split_and!; [done | by apply contains_false | by left].
  - destruct (Ascii.eqb_spec "/" a) as [<-|Hne].
    + exists "", (String "/" (user +:+ rest)).
      split_and!; [done | by apply contains_false | right; by eexists].
    + exists (String a user), rest. split_and!; [done | | done].
      apply contains_false. rewrite contains_sep_cons.
      apply contains_false in Hu. rewrite Hu.
      by destruct (Ascii.eqb_spec "/" a).
Qed.

Lemma home_stripped_rstrip home stripped :
  home_stripped home stripped → Py.rstrip home posixpath.sep = stripped.
Proof.
  intros (seps & -> & Hseps & Hs). apply rstrip_app; [|done].
  destruct Hseps as [->|Hseps]; [done | by apply separators_all_char].
Qed.

Lemma home_stripped_total home : ∃ stripped, home_stripped home stripped.
Proof.
  destruct (rstrip_split home) as (seps & Hh & Hseps & Hs).
  exists (Py.rstrip home posixpath.sep), seps. split_and!; [done | | done].
  destruct seps as [|a t]; [by left | right]. by apply all_char_separators.
Qed.

Lemma expanduser_tilde {R U : Type} (w : World R U) user rest :
  ¬ has_substring "/" user → rest = "" ∨ has_prefix "/" rest →
  expanduser w ("~" +:+ user +:+ rest) =
    match userhome w user with
    | None => "~" +:+ user +:+ rest
    | Some home =>
        if Py.truthy (Py.rstrip home posixpath.sep +:+ rest)
        then Py.rstrip home posixpath.sep +:+ rest else "/"
    end.
Proof.
  intros Hu Hrest. unfold expanduser. rewrite append_cons, append_nil.
  cbn [Py.startswith Py.tail negb]. replace (Ascii.eqb "~" "~") with true by done.
  cbn [negb]. by rewrite split_at_sound.
Qed.

(** [os.path.expanduser] returns the expanded path. *)
Lemma expanduser_sound {R U : Type} (w : World R U) path expanded :
  expanded_path w path expanded → expanduser w path = expanded.
Proof.
  intros [Hp|user rest -> Hu Hrest Hh|user rest home h -> Hu Hrest Hh Hs Hne
          |user rest home h -> Hu Hrest Hh Hs He].
  - by apply expanduser_no_tilde.
  - by rewrite expanduser_tilde, Hh.
  - rewrite expanduser_tilde, Hh, (home_stripped_rstrip _ _ Hs) by done.
    by destruct (h +:+ rest).
  - rewrite expanduser_tilde, Hh, (home_stripped_rstrip _ _ Hs) by done.
    by rewrite He.
Qed.

(** Every path has an expansion. *)
Lemma expanded_path_total {R U : Type} (w : World R U) path :
  ∃ expanded, expanded_path w path expanded.
Proof.
  destruct (Py.startswith path "~") eqn:E.
  2: { exists path. constructor 1. by apply startswith_false. }
  apply startswith_spec in E as [s ->].
  destruct (split_at_decompose s) as (user & rest & -> & Hu & Hrest).
  destruct (userhome w user) as [home|] eqn:Hh.
  - destruct (home_stripped_total home) as [h Hs].
    destruct (h +:+ rest) as [|a t] eqn:He.
    + exists "/". by eapply expanded_root.
    + exists (h +:+ rest). eapply expanded_home; [done.. |]. by rewrite He.
  - eexists. by eapply expanded_unknown.
Qed.

Lemma parse_error_spec e : parse_error e ↔ is_parse_failure e = true.
Proof.
  split.
  - by intros [d [->| ->]].
  - destruct e as [m|d|d|c d]; try done; intros _; exists d; auto.
Qed.

(** C8 (amended): [read_user_config] first expands the home-directory
    shorthand at the head of the path.  When the expanded path is not an
    existing file it logs a warning and returns the default message,
    without raising.  When the file exists and reading it raises one of the
    two parse errors that the loader catches, it logs an error that names
    the expanded path and raises that error. *)
Theorem read_user_config_spec {R U : Type} (UserConfig_default : U) (w : World R U)
    (artman_user_config_path : string) (log : list log_record) :
  (∃ expanded, expanded_path w artman_user_config_path expanded)
  ∧ (∀ expanded,
       expanded_path w artman_user_config_path expanded →
       isfile w expanded = false →
       read_user_config UserConfig_default w artman_user_config_path log =
         (Return UserConfig_default, log ++ [(WARNING, Plain NO_USER_CONFIG_MESSAGE)]))
  ∧ (∀ expanded e,
       expanded_path w artman_user_config_path expanded →
       isfile w expanded = true →
       read_user_config_file w expanded = Raise e →
       parse_error e →
       read_user_config UserConfig_default w artman_user_config_path log =
         (Raise e,
          log ++ [(ERROR, Format INVALID_USER_CONFIG_ERROR_MESSAGE_FORMAT
                            [ArgStr expanded])])).
Proof.
  split_and!.
  - apply expanded_path_total.
  - intros expanded He%expanduser_sound Hf. unfold read_user_config.
    by rewrite He, Hf.
  - intros expanded e He%expanduser_sound Hf Hr Hp%parse_error_spec.
    unfold read_user_config. by rewrite He, Hf, Hr, Hp.
Qed.

Lemma home_stripped_u : home_stripped "/home/u/" "/home/u".
Proof.
  exists "/". split_and!; [done | right; constructor |].
  by intros H%endswith_char_spec.
Qed.

Lemma home_world_expanded file :
  expanded_path home_world ("~/.artman/" +:+ file) ("/home/u/.artman/" +:+ file).
Proof.
  apply (expanded_home home_world ("~/.artman/" +:+ file) "" ("/.artman/" +:+ file)
           "/home/u/" "/home/u").
  - done.
  - by apply contains_false.
  - right. by eexists.
  - done.
  - apply home_stripped_u.
  - done.
Qed.

Lemma read_user_config_spec_witness :
  read_user_config tt home_world "~/.artman/config.yaml" [] =
    (Return tt, [] ++ [(WARNING, Plain NO_USER_CONFIG_MESSAGE)])
  ∧ read_user_config tt home_world "~/.artman/broken.yaml" [] =
      (Raise (yaml_parser_ParserError "/home/u/.artman/broken.yaml"),
       [] ++ [(ERROR, Format INVALID_USER_CONFIG_ERROR_MESSAGE_FORMAT
                        [ArgStr "/home/u/.artman/broken.yaml"])]).
Proof.
  split.
  - apply (proj1 (proj2 (read_user_config_spec tt home_world "~/.artman/config.yaml" []))
             "/home/u/.artman/config.yaml" (home_world_expanded "config.yaml")).
    reflexivity.
  - apply (proj2 (proj2 (read_user_config_spec tt home_world "~/.artman/broken.yaml" []))
             "/home/u/.artman/broken.yaml"
             (yaml_parser_ParserError "/home/u/.artman/broken.yaml")
             (home_world_expanded "broken.yaml")).
    + reflexivity.
    + reflexivity.
    + exists "/home/u/.artman/broken.yaml". by right.
Defined.

(** C8, as stated, fails: a user configuration file that exists and that
    the YAML scanner cannot read makes [read_user_config] fail without any
    record being logged. *)
Lemma read_user_config_unlogged_counterexample :
  isfile (unreadable_world "user.yaml" scanner_error) "user.yaml" = true
  ∧ expanded_path (unreadable_world "user.yaml" scanner_error) "user.yaml" "user.yaml"
  ∧ read_user_config_file (unreadable_world "user.yaml" scanner_error) "user.yaml" =
      Raise scanner_error
  ∧ read_user_config tt (unreadable_world "user.yaml" scanner_error) "user.yaml" [] =
      (Raise scanner_error, []).
Proof.
  split_and!; [done | | done | done].
  constructor 1. by apply startswith_false.
Qed.
